(** * Range-partition routing of [table/tables/partition.go]

    A shallow embedding of the partitioned table of TiDB: the boundary
    compiler [generatePartitionExpr], the locator [locatePartition] built on
    Go's [sort.Search], the registry built by [newPartitionedTable] and the
    facade operations [AddRecord], [RemoveRecord], [UpdateRecord],
    [GetPartition] and [GetID].

    Conventions.
    - [int64] and [int] values are integers of [Z]; slice indices and lengths
      are [nat] (a Go length is never negative).
    - A Go function that may panic returns an [Outcome]; a Go [error] result
      is an [option Error] ([None] is [nil]); a Go pointer that may be [nil]
      is an [option].
    - The packages the file imports ([expression], [table], [model], the
      physical table of [tables.go]) are interfaces: they are the fields of
      the classes [Base], [ExprPkg] and [TablePkg]. *)

From Stdlib Require Import ZArith List Bool Ascii String Lia PeanoNat.
From stdpp Require Import base option list gmap strings.

Local Open Scope Z_scope.
#[local] Set Warnings "-clear-no-such-hyp".

(** ** Go runtime: panics *)

Inductive Outcome (A : Type) : Type :=
| Return (a : A)
| Panic (msg : string).
Arguments Return {A} a.
Arguments Panic {A} msg.

Definition nil_dereference : string :=
  "invalid memory address or nil pointer dereference".
Definition index_out_of_range : string := "index out of range".

Definition isPanic {A} (o : Outcome A) : bool :=
  match o with Panic _ => true | Return _ => false end.

Definition outcome_bind {A B} (o : Outcome A) (k : A -> Outcome B) : Outcome B :=
  match o with
  | Return a => k a
  | Panic msg => Panic msg
  end.

(** [s[i]] on a slice: a run-time panic when [i] is out of range. *)
Definition index {A} (s : list A) (i : nat) : Outcome A :=
  match s !! i with
  | Some a => Return a
  | None => Panic index_out_of_range
  end.

(** ** Go standard library: [sort.Search]

    <<
    func Search(n int, f func(int) bool) int {
        i, j := 0, n
        for i < j {
            h := int(uint(i+j) >> 1)
            if !f(h) { i = h + 1 } else { j = h }
        }
        return i
    }
    >>
    The closure [f] may write variables it captured and may panic, so it is
    a state transformer over the captured variables [V].  [uint(i+j) >> 1]
    is the exact half of [i + j] for the non-negative [i], [j] of the loop.
    The loop runs at most [j - i] times; [fuel] bounds it. *)

Fixpoint sort_Search_loop {V : Type} (fuel : nat)
    (f : nat -> V -> Outcome (bool * V)) (i j : nat) (v : V) : Outcome (nat * V) :=
  match fuel with
  | O => Return (i, v)
  | S fuel' =>
      if (i <? j)%nat then
        let h := ((i + j) / 2)%nat in
        match f h v with
        | Panic msg => Panic msg
        | Return (b, v') =>
            if negb b then sort_Search_loop fuel' f (h + 1)%nat j v'
            else sort_Search_loop fuel' f i h v'
        end
      else Return (i, v)
  end.

Definition sort_Search {V : Type} (n : nat)
    (f : nat -> V -> Outcome (bool * V)) (v : V) : Outcome (nat * V) :=
  sort_Search_loop n f 0%nat n v.

(** ** Go standard library: [strings.EqualFold] against an ASCII word

    [EqualFold] compares under Unicode simple case folding.  The only ASCII
    letters with a fold partner outside ASCII are K and S, so against a word
    without them (here MAXVALUE) it is byte-wise equality of the ASCII
    lower-cased strings. *)

Definition ascii_lower (c : ascii) : ascii :=
  let n := nat_of_ascii c in
  if ((65 <=? n) && (n <=? 90))%nat then ascii_of_nat (n + 32) else c.

Fixpoint string_lower (s : string) : string :=
  match s with
  | EmptyString => EmptyString
  | String c s' => String (ascii_lower c) (string_lower s')
  end.

Definition strings_EqualFold (s t : string) : bool :=
  String.eqb (string_lower s) (string_lower t).

(** ** Package [model]: the schema metadata this file reads

    [model.PartitionDefinition], [model.PartitionInfo] and [model.TableInfo]
    are declared outside this file; the fields below are the ones it reads. *)

Record PartitionDefinition := {
  ID : Z;                     (* int64 *)
  LessThan : list string      (* []string; the code reads LessThan[0] *)
}.

Record PartitionInfo := {
  Expr : string;
  Definitions : list PartitionDefinition
}.

Record TableInfo := {
  Partition : option PartitionInfo   (* *PartitionInfo, nil without partitioning *)
}.

Definition GetPartitionInfo (tblInfo : TableInfo) : option PartitionInfo :=
  Partition tblInfo.

(** ** The imported packages, as interfaces *)

(** Types and values this file takes from other packages.  An [Error] is a
    Go error value up to [errors.Cause]. *)
Class Base := {
  Error : Type;
  ErrTrgInvalidCreationCtx : Error;      (* table.ErrTrgInvalidCreationCtx *)
  errors_ErrorStack : Error -> string;   (* errors.ErrorStack *)
  Datum : Type;                          (* types.Datum *)
  SessionCtx : Type;                     (* sessionctx.Context *)
  mock_NewContext : SessionCtx;          (* mock.NewContext() *)
  Column : Type;                         (* *table.Column *)
  Index : Type;                          (* table.Index *)
  Allocator : Type;                      (* autoid.Allocator *)
  Store : Type                           (* what the transaction of a context holds *)
}.

(** [errors.Trace] annotates an error with the call site; the cause is the
    same error. *)
Definition errors_Trace `{Base} (err : Error) : Error := err.

(** A callee's [(T, error)] result where exactly one side is set. *)
Inductive Result (E A : Type) : Type :=
| Ok (a : A)
| Err (e : E).
Arguments Ok {E A} a.
Arguments Err {E A} e.

(** Package [expression]: the [Expression] interface and the parser. *)
Class ExprPkg `{Base} := {
  Expression : Type;
  (* e.EvalInt(ctx, row) (val int64, isNull bool, err error) *)
  EvalInt : Expression -> SessionCtx -> list Datum -> Z * bool * option Error;
  ParseSimpleExprWithTableInfo :
    SessionCtx -> string -> TableInfo -> Result Error Expression
}.

(** [tableCommon] of [tables.go]: the physical table both [Table] and
    [partition] embed.  The fields are the ones this file reads. *)
Record tableCommon `{Base} := {
  partitionID : Z;
  Columns : list Column;
  indices : list Index;
  meta : TableInfo;
  alloc : Allocator
}.

(** The functions of [tables.go] this file calls.  A physical operation
    reads and writes the store of the transaction. *)
Class TablePkg `{Base} := {
  initTableIndices : tableCommon -> tableCommon * option Error;
  initTableCommonWithIndices :
    TableInfo -> Z -> list Column -> Allocator -> tableCommon * option Error;
  tableCommon_AddRecord :
    tableCommon -> SessionCtx -> list Datum -> bool -> Store ->
    (Z * option Error) * Store;
  tableCommon_RemoveRecord :
    tableCommon -> SessionCtx -> Z -> list Datum -> Store ->
    option Error * Store;
  tableCommon_UpdateRecord :
    tableCommon -> SessionCtx -> Z -> list Datum -> list Datum -> list bool ->
    Store -> option Error * Store
}.

(** ** The types of [partition.go] *)

Record Table `{Base} := { Table_tableCommon : tableCommon }.

Record partition `{Base} := { partition_tableCommon : tableCommon }.

Record PartitionExpr `{ExprPkg} := {
  Ranges : list Expression;
  UpperBounds : list Expression
}.

Record partitionedTable `{ExprPkg} := {
  embedded_Table : Table;
  partitionExpr : option PartitionExpr;      (* *PartitionExpr *)
  partitions : gmap Z partition              (* map[int64]*partition *)
}.

(** ** The world the facade runs in

    The store of the transaction, the log of the process, and a record of
    the physical operations issued (which partition, which arguments), kept
    to state which partitions an operation touched. *)

Inductive Call `{Base} : Type :=
| CallAddRecord (p : partition) (r : list Datum) (skipHandleCheck : bool)
| CallRemoveRecord (p : partition) (h : Z) (r : list Datum)
| CallUpdateRecord (p : partition) (h : Z) (currData newData : list Datum)
    (touched : list bool).

Inductive LogEntry : Type :=
| log_Error (args : list string).

Record World `{Base} := {
  store : Store;
  calls : list Call;
  logged : list LogEntry
}.

Definition M `{Base} (A : Type) : Type := World -> Outcome (A * World).

Definition ret `{Base} {A} (a : A) : M A := fun w => Return (a, w).

Definition bind `{Base} {A B} (m : M A) (k : A -> M B) : M B :=
  fun w =>
    match m w with
    | Return (a, w') => k a w'
    | Panic msg => Panic msg
    end.

Definition panic `{Base} {A} (msg : string) : M A := fun _ => Panic msg.

Definition lift `{Base} {A} (o : Outcome A) : M A :=
  fun w => match o with Return a => Return (a, w) | Panic msg => Panic msg end.

Definition log_write `{Base} (e : LogEntry) : M unit :=
  fun w => Return (tt, {| store := store w; calls := calls w;
                          logged := logged w ++ [e] |}).

Notation "'let*' x ':=' m 'in' k" := (bind m (fun x => k))
  (at level 10, x pattern, m at level 100, k at level 200).

(** [table.Table]: the methods of the interface this file implements. *)
Class table_Table `{Base} (T : Type) := {
  Table_AddRecord : T -> SessionCtx -> list Datum -> bool -> M (Z * option Error);
  Table_RemoveRecord : T -> SessionCtx -> Z -> list Datum -> M (option Error);
  Table_UpdateRecord :
    T -> SessionCtx -> Z -> list Datum -> list Datum -> list bool -> M (option Error);
  Table_GetID : T -> Outcome Z
}.

(** ** [partition.go] *)

Section Code.
Context `{EP : ExprPkg} `{TP : !TablePkg}.

(** [GetID] of [partition] (line 53). *)
Definition partition_GetID (p : partition) : Outcome Z :=
  Return (partitionID (partition_tableCommon p)).

(** One pass of the loop body of [generatePartitionExpr] (lines 115-142) at
    index [i], with [todo] iterations left.  [buf] is the [bytes.Buffer];
    [fmt.Fprintf] appends to it and [buf.Reset()] empties it. *)
Fixpoint generatePartitionExpr_loop (todo : nat) (i : nat)
    (tblInfo : TableInfo) (pi : PartitionInfo) (ctx : SessionCtx)
    (partitionPruneExprs locateExprs : list Expression) (buf : string)
    : M (option PartitionExpr * option Error) :=
  match todo with
  | O =>
      ret (Some {| Ranges := partitionPruneExprs; UpperBounds := locateExprs |},
           None)
  | S todo' =>
      let* d := lift (index (Definitions pi) i) in
      let* lessThan0 := lift (index (LessThan d) 0) in
      let buf :=
        if strings_EqualFold lessThan0 "MAXVALUE"
        then buf +:+ "true"
        else buf +:+ "((" +:+ Expr pi +:+ ") < (" +:+ lessThan0 +:+ "))" in
      match ParseSimpleExprWithTableInfo ctx buf tblInfo with
      | Err err =>
          let* _ := log_write (log_Error ["wrong table partition expression:";
                                          errors_ErrorStack err; buf]) in
          ret (None, Some (errors_Trace err))
      | Ok expr =>
          let locateExprs := locateExprs ++ [expr] in
          let* buf :=
            if (0 <? i)%nat then
              let* prev := lift (index (Definitions pi) (i - 1)) in
              let* prevLessThan0 := lift (index (LessThan prev) 0) in
              ret (buf +:+ " and ((" +:+ Expr pi +:+ ") >= ("
                       +:+ prevLessThan0 +:+ "))")
            else ret buf in
          match ParseSimpleExprWithTableInfo ctx buf tblInfo with
          | Err err =>
              let* _ := log_write (log_Error ["wrong table partition expression:";
                                              errors_ErrorStack err; buf]) in
              ret (None, Some (errors_Trace err))
          | Ok expr =>
              let partitionPruneExprs := partitionPruneExprs ++ [expr] in
              generatePartitionExpr_loop todo' (i + 1) tblInfo pi ctx
                partitionPruneExprs locateExprs ""
          end
      end
  end.

(** [generatePartitionExpr] (lines 108-147).  A nil partition info makes
    [pi.Definitions] panic: the caller should assure it is not nil. *)
Definition generatePartitionExpr (tblInfo : TableInfo)
    : M (option PartitionExpr * option Error) :=
  match GetPartitionInfo tblInfo with
  | None => panic nil_dereference
  | Some pi =>
      let ctx := mock_NewContext in
      generatePartitionExpr_loop (length (Definitions pi)) 0 tblInfo pi ctx [] [] ""
  end.

(** The [range] loop of [newPartitionedTable] (lines 76-83). *)
Fixpoint newPartitionedTable_loop (defs : list PartitionDefinition)
    (tbl : Table) (tblInfo : TableInfo) (partitions : gmap Z partition)
    : Result Error (gmap Z partition) :=
  match defs with
  | [] => Ok partitions
  | p :: defs' =>
      match initTableCommonWithIndices tblInfo (ID p)
              (Columns (Table_tableCommon tbl)) (alloc (Table_tableCommon tbl)) with
      | (_, Some err) => Err (errors_Trace err)
      | (tc, None) =>
          let t := {| partition_tableCommon := tc |} in
          newPartitionedTable_loop defs' tbl tblInfo (<[ID p := t]> partitions)
      end
  end.

(** [newPartitionedTable] (lines 65-90): the pair is Go's
    [(table.Table, error)].  [initTableIndices] updates [*tbl] in place; the
    table returned embeds the updated value. *)
Definition newPartitionedTable (tbl : Table) (tblInfo : TableInfo)
    : M (option partitionedTable * option Error) :=
  let* (partitionExpr, err) := generatePartitionExpr tblInfo in
  match err with
  | Some err => ret (None, Some (errors_Trace err))
  | None =>
      match initTableIndices (Table_tableCommon tbl) with
      | (_, Some err) => ret (None, Some (errors_Trace err))
      | (tc, None) =>
          let tbl := {| Table_tableCommon := tc |} in
          match GetPartitionInfo tblInfo with
          | None => panic nil_dereference
          | Some pi =>
              match newPartitionedTable_loop (Definitions pi) tbl tblInfo ∅ with
              | Err err => ret (None, Some err)
              | Ok partitions =>
                  ret (Some {| embedded_Table := tbl;
                               partitionExpr := partitionExpr;
                               partitions := partitions |}, None)
              end
          end
      end
  end.

(** [PartitionExpr()] (line 150). *)
Definition partitionedTable_PartitionExpr (t : partitionedTable)
    : option PartitionExpr :=
  partitionExpr t.

(** The variables the closure of [locatePartition] captures and writes:
    [err] (line 161).  [probes] lists, oldest first, the indices at which the
    closure called [EvalInt]; the code has no such variable, it records the
    order of evaluation. *)
Record SearchVars := {
  err : option Error;
  probes : list nat
}.

(** The closure passed to [sort.Search] (lines 163-170).
    [chunk.MutRowFromDatums(r).ToRow()] is the row of the datums [r]. *)
Definition locateClosure (partitionExprs : list Expression) (ctx : SessionCtx)
    (r : list Datum) (i : nat) (v : SearchVars) : Outcome (bool * SearchVars) :=
  outcome_bind (index partitionExprs i) (fun e =>
    let '(ret, _, err) := EvalInt e ctx r in
    let v := {| err := err; probes := probes v ++ [i] |} in
    match err with
    | Some _ => Return (true, v)      (* Break the search. *)
    | None => Return (0 <? ret, v)
    end).

(** Lines 161-170: the search, with the final value of the captured
    variables. *)
Definition locateSearch (partitionExprs : list Expression) (ctx : SessionCtx)
    (r : list Datum) : Outcome (nat * SearchVars) :=
  sort_Search (length partitionExprs) (locateClosure partitionExprs ctx r)
    {| err := None; probes := [] |}.

(** [locatePartition] (lines 160-179); the pair is Go's [(int64, error)]. *)
Definition locatePartition (t : partitionedTable) (ctx : SessionCtx)
    (pi : option PartitionInfo) (r : list Datum) : Outcome (Z * option Error) :=
  outcome_bind
    (match partitionExpr t with
     | None => Panic nil_dereference
     | Some pe => Return (UpperBounds pe)
     end) (fun partitionExprs =>
  outcome_bind (locateSearch partitionExprs ctx r) (fun '(idx, v) =>
    match err v with
    | Some err => Return (0, Some (errors_Trace err))
    | None =>
        if (idx <? 0)%nat || (length partitionExprs <=? idx)%nat then
          Return (0, Some (errors_Trace ErrTrgInvalidCreationCtx))
        else
          match pi with
          | None => Panic nil_dereference
          | Some pi =>
              outcome_bind (index (Definitions pi) idx) (fun d =>
                Return (ID d, None))
          end
    end)).

(** [GetPartition] (lines 182-184): a map read; a missing key gives the nil
    [*partition]. *)
Definition GetPartition (t : partitionedTable) (pid : Z) : Outcome (option partition) :=
  Return (partitions t !! pid).

(** The methods of a [*partition] held in a [table.Table]: those of the
    embedded [tableCommon]; through a nil pointer they panic. *)
Definition partition_AddRecord (tbl : option partition) (ctx : SessionCtx)
    (r : list Datum) (skipHandleCheck : bool) : M (Z * option Error) :=
  match tbl with
  | None => panic nil_dereference
  | Some p => fun w =>
      let '(res, st) :=
        tableCommon_AddRecord (partition_tableCommon p) ctx r skipHandleCheck (store w) in
      Return (res, {| store := st;
                      calls := calls w ++ [CallAddRecord p r skipHandleCheck];
                      logged := logged w |})
  end.

Definition partition_RemoveRecord (tbl : option partition) (ctx : SessionCtx)
    (h : Z) (r : list Datum) : M (option Error) :=
  match tbl with
  | None => panic nil_dereference
  | Some p => fun w =>
      let '(res, st) :=
        tableCommon_RemoveRecord (partition_tableCommon p) ctx h r (store w) in
      Return (res, {| store := st;
                      calls := calls w ++ [CallRemoveRecord p h r];
                      logged := logged w |})
  end.

Definition partition_UpdateRecord (tbl : option partition) (ctx : SessionCtx)
    (h : Z) (currData newData : list Datum) (touched : list bool) : M (option Error) :=
  match tbl with
  | None => panic nil_dereference
  | Some p => fun w =>
      let '(res, st) :=
        tableCommon_UpdateRecord (partition_tableCommon p) ctx h currData newData
          touched (store w) in
      Return (res, {| store := st;
                      calls := calls w ++ [CallUpdateRecord p h currData newData touched];
                      logged := logged w |})
  end.

(** [AddRecord] (lines 187-196). *)
Definition AddRecord (t : partitionedTable) (ctx : SessionCtx) (r : list Datum)
    (skipHandleCheck : bool) : M (Z * option Error) :=
  let partitionInfo := GetPartitionInfo (meta (Table_tableCommon (embedded_Table t))) in
  let* (pid, err) := lift (locatePartition t ctx partitionInfo r) in
  match err with
  | Some err => ret (0, Some (errors_Trace err))
  | None =>
      let* tbl := lift (GetPartition t pid) in
      partition_AddRecord tbl ctx r skipHandleCheck
  end.

(** [RemoveRecord] (lines 199-208). *)
Definition RemoveRecord (t : partitionedTable) (ctx : SessionCtx) (h : Z)
    (r : list Datum) : M (option Error) :=
  let partitionInfo := GetPartitionInfo (meta (Table_tableCommon (embedded_Table t))) in
  let* (pid, err) := lift (locatePartition t ctx partitionInfo r) in
  match err with
  | Some err => ret (Some (errors_Trace err))
  | None =>
      let* tbl := lift (GetPartition t pid) in
      partition_RemoveRecord tbl ctx h r
  end.

(** [UpdateRecord] (lines 213-247). *)
Definition UpdateRecord (t : partitionedTable) (ctx : SessionCtx) (h : Z)
    (currData newData : list Datum) (touched : list bool) : M (option Error) :=
  let partitionInfo := GetPartitionInfo (meta (Table_tableCommon (embedded_Table t))) in
  let* (from, err) := lift (locatePartition t ctx partitionInfo currData) in
  match err with
  | Some err => ret (Some (errors_Trace err))
  | None =>
      let* (to, err) := lift (locatePartition t ctx partitionInfo newData) in
      match err with
      | Some err => ret (Some (errors_Trace err))
      | None =>
          if negb (from =? to) then
            let* dst := lift (GetPartition t to) in
            let* (_, err) := partition_AddRecord dst ctx newData false in
            match err with
            | Some err => ret (Some (errors_Trace err))
            | None =>
                let* src := lift (GetPartition t from) in
                let* err := partition_RemoveRecord src ctx h currData in
                match err with
                | Some err =>
                    let* _ := log_write (log_Error
                      ["partition update record error, it may write dirty data to txn:";
                       errors_ErrorStack err]) in
                    ret (Some (errors_Trace err))
                | None => ret None
                end
            end
          else
            let* tbl := lift (GetPartition t to) in
            partition_UpdateRecord tbl ctx h currData newData touched
      end
  end.

(** [GetID] of [partitionedTable] (lines 249-251). *)
Definition GetID (t : partitionedTable) : Outcome Z :=
  Panic "GetID() should never be called on PartitionedTable".

(** Lines 35-40: both [*partition] and [*partitionedTable] implement
    [table.Table]. *)
#[local] Instance partition_implements_Table : table_Table (option partition) := {|
  Table_AddRecord := partition_AddRecord;
  Table_RemoveRecord := partition_RemoveRecord;
  Table_UpdateRecord := partition_UpdateRecord;
  Table_GetID := fun tbl => match tbl with
                            | Some p => partition_GetID p
                            | None => Panic nil_dereference
                            end
|}.

#[local] Instance partitionedTable_implements_Table : table_Table partitionedTable := {|
  Table_AddRecord := AddRecord;
  Table_RemoveRecord := RemoveRecord;
  Table_UpdateRecord := UpdateRecord;
  Table_GetID := GetID
|}.

End Code.

(** ** A small instance of the interfaces

    The general development quantifies over [Base], [ExprPkg] and
    [TablePkg].  The instance below runs it on concrete tables: integer
    rows, an evaluator for the comparisons the boundary compiler writes, and
    a physical table that is a list of rows. *)

Module Demo.

Inductive error : Type :=
| ErrNoPartition         (* plays table.ErrTrgInvalidCreationCtx *)
| ErrDivisionByZero
| ErrUnknownColumn (name : string)
| ErrSyntax (text : string)
| ErrKeyExists
| ErrKeyNotExists
| ErrInvalidTableID.

Definition error_text (e : error) : string :=
  match e with
  | ErrNoPartition => "invalid creation context"
  | ErrDivisionByZero => "division by 0"
  | ErrUnknownColumn name => "unknown column " +:+ name
  | ErrSyntax text => "syntax error near " +:+ text
  | ErrKeyExists => "key already exists"
  | ErrKeyNotExists => "key not exists"
  | ErrInvalidTableID => "invalid table id"
  end.

(** A stored row: partition identifier (the key prefix), handle, datums. *)
Definition row_entry : Type := Z * Z * list Z.

Definition base : Base := {|
  Error := error;
  ErrTrgInvalidCreationCtx := ErrNoPartition;
  errors_ErrorStack := error_text;
  Datum := Z;
  SessionCtx := unit;
  mock_NewContext := tt;
  Column := string;
  Index := string;
  Allocator := unit;
  Store := list row_entry
|}.
#[local] Existing Instance base.

(** Modelled from the spec: the expression evaluator the file consumes
    (section 6, [evaluate(Predicate, row, evalContext)]), for integer rows.
    A comparison is 1 or 0; a division by zero is an evaluation error. *)
Inductive expr : Type :=
| ETrue
| EConst (z : Z)
| ECol (i : nat)
| EDiv (a b : expr)
| ELt (a b : expr)
| EGe (a b : expr)
| EAnd (a b : expr).

Definition eval_binary (f : Z -> Z -> Z * bool * option error)
    (x y : Z * bool * option error) : Z * bool * option error :=
  match x, y with
  | (_, _, Some e), _ => (0, true, Some e)
  | _, (_, _, Some e) => (0, true, Some e)
  | (_, true, None), _ => (0, true, None)
  | _, (_, true, None) => (0, true, None)
  | (a, false, None), (b, false, None) => f a b
  end.

Fixpoint eval (e : expr) (row : list Z) : Z * bool * option error :=
  match e with
  | ETrue => (1, false, None)
  | EConst z => (z, false, None)
  | ECol i => match row !! i with
              | Some z => (z, false, None)
              | None => (0, true, None)
              end
  | EDiv a b =>
      eval_binary (fun x y => if y =? 0 then (0, true, Some ErrDivisionByZero)
                              else (x ÷ y, false, None))
        (eval a row) (eval b row)
  | ELt a b =>
      eval_binary (fun x y => (if x <? y then 1 else 0, false, None))
        (eval a row) (eval b row)
  | EGe a b =>
      eval_binary (fun x y => (if y <=? x then 1 else 0, false, None))
        (eval a row) (eval b row)
  | EAnd a b =>
      eval_binary (fun x y => (if (x =? 0) || (y =? 0) then 0 else 1, false, None))
        (eval a row) (eval b row)
  end.

(** Modelled from the spec: the compiler of boundary text the file consumes
    (section 6, [compile(text, tableSchema)]), for the texts
    [generatePartitionExpr] writes over the columns [a] and [b]: operands
    are a column, a decimal literal, or a quotient [x/y] of two of these. *)
Definition column_names : list string := ["a"; "b"].

Fixpoint strip_prefix (p s : string) : option string :=
  match p, s with
  | EmptyString, _ => Some s
  | String c p', String d s' => if Ascii.eqb c d then strip_prefix p' s' else None
  | String _ _, EmptyString => None
  end.

(** The text before the first [c], and the text from that [c] on. *)
Fixpoint take_until (c : ascii) (s : string) : string * string :=
  match s with
  | EmptyString => (EmptyString, EmptyString)
  | String d s' =>
      if Ascii.eqb c d then (EmptyString, s)
      else let '(x, y) := take_until c s' in (String d x, y)
  end.

Definition digit_of (c : ascii) : option Z :=
  let n := nat_of_ascii c in
  if ((48 <=? n) && (n <=? 57))%nat then Some (Z.of_nat (n - 48)) else None.

Fixpoint parse_digits (acc : Z) (s : string) : option Z :=
  match s with
  | EmptyString => Some acc
  | String c s' =>
      match digit_of c with
      | Some d => parse_digits (10 * acc + d) s'
      | None => None
      end
  end.

Fixpoint column_index (names : list string) (name : string) : option nat :=
  match names with
  | [] => None
  | n :: names' =>
      if String.eqb n name then Some O
      else option_map S (column_index names' name)
  end.

Definition parse_atom (s : string) : Result error expr :=
  match s with
  | EmptyString => Err (ErrSyntax s)
  | String _ _ =>
      match parse_digits 0 s with
      | Some z => Ok (EConst z)
      | None =>
          match column_index column_names s with
          | Some i => Ok (ECol i)
          | None => Err (ErrUnknownColumn s)
          end
      end
  end.

Definition parse_operand (s : string) : Result error expr :=
  match take_until "/" s with
  | (x, EmptyString) => parse_atom x
  | (x, String _ y) =>
      match parse_atom x, parse_atom y with
      | Ok a, Ok b => Ok (EDiv a b)
      | Err e, _ => Err e
      | _, Err e => Err e
      end
  end.

(** One comparison [((x) op (y))] or [true], and the text after it. *)
Definition parse_comparison (s : string) : Result error (expr * string) :=
  match strip_prefix "true" s with
  | Some rest => Ok (ETrue, rest)
  | None =>
      match strip_prefix "((" s with
      | None => Err (ErrSyntax s)
      | Some s1 =>
          let '(x, s2) := take_until ")" s1 in
          let finish (mk : expr -> expr -> expr) (s3 : string) :=
            let '(y, s4) := take_until ")" s3 in
            match strip_prefix "))" s4 with
            | None => Err (ErrSyntax s4)
            | Some rest =>
                match parse_operand x, parse_operand y with
                | Ok a, Ok b => Ok (mk a b, rest)
                | Err e, _ => Err e
                | _, Err e => Err e
                end
            end in
          match strip_prefix ") < (" s2, strip_prefix ") >= (" s2 with
          | Some s3, _ => finish ELt s3
          | None, Some s3 => finish EGe s3
          | None, None => Err (ErrSyntax s2)
          end
      end
  end.

Definition parse (ctx : unit) (text : string) (tblInfo : TableInfo)
    : Result error expr :=
  match parse_comparison text with
  | Err e => Err e
  | Ok (a, EmptyString) => Ok a
  | Ok (a, rest) =>
      match strip_prefix " and " rest with
      | None => Err (ErrSyntax rest)
      | Some rest' =>
          match parse_comparison rest' with
          | Ok (b, EmptyString) => Ok (EAnd a b)
          | Ok (_, trailing) => Err (ErrSyntax trailing)
          | Err e => Err e
          end
      end
  end.

Definition exprPkg : @ExprPkg base := {|
  Expression := expr;
  EvalInt := fun e _ row => eval e row;
  ParseSimpleExprWithTableInfo := parse
|}.
#[local] Existing Instance exprPkg.

(** Modelled from the spec: the physical table the file consumes (section
    6), as a list of stored rows.  The handle of a row is its first datum;
    adding a key twice and removing or updating a missing key fail and leave
    the store as it was; a negative table identifier does not initialise. *)
Definition same_key (pid h : Z) (e : row_entry) : bool :=
  let '(pid', h', _) := e in (pid' =? pid) && (h' =? h).

Definition has_key (pid h : Z) (st : list row_entry) : bool :=
  existsb (same_key pid h) st.

Definition demo_init (tblInfo : TableInfo) (pid : Z) (cols : list string)
    (al : unit) : tableCommon * option error :=
  let tc := {| partitionID := pid; Columns := cols; indices := [];
               meta := tblInfo; alloc := al |} in
  if pid <? 0 then (tc, Some ErrInvalidTableID) else (tc, None).

Definition demo_add (tc : tableCommon) (_ : unit) (r : list Z)
    (skipHandleCheck : bool) (st : list row_entry)
    : (Z * option error) * list row_entry :=
  let h := hd 0 r in
  if has_key (partitionID tc) h st then ((0, Some ErrKeyExists), st)
  else ((h, None), st ++ [(partitionID tc, h, r)]).

Definition demo_remove (tc : tableCommon) (_ : unit) (h : Z) (r : list Z)
    (st : list row_entry) : option error * list row_entry :=
  if has_key (partitionID tc) h st
  then (None, List.filter (fun e => negb (same_key (partitionID tc) h e)) st)
  else (Some ErrKeyNotExists, st).

Definition demo_update (tc : tableCommon) (_ : unit) (h : Z)
    (currData newData : list Z) (touched : list bool) (st : list row_entry)
    : option error * list row_entry :=
  if has_key (partitionID tc) h st
  then (None, List.map (fun e => if same_key (partitionID tc) h e
                                 then (partitionID tc, h, newData) else e) st)
  else (Some ErrKeyNotExists, st).

Definition tablePkg : @TablePkg base := {|
  initTableIndices := fun tc => (tc, None);
  initTableCommonWithIndices := demo_init;
  tableCommon_AddRecord := demo_add;
  tableCommon_RemoveRecord := demo_remove;
  tableCommon_UpdateRecord := demo_update
|}.
#[local] Existing Instance tablePkg.

(** The tables of the scenarios: range over column [a]. *)
Definition range_by_a (defs : list PartitionDefinition) : TableInfo :=
  {| Partition := Some {| Expr := "a"; Definitions := defs |} |}.

(** Boundaries 100, 200, MAXVALUE: partitions 1, 2, 3. *)
Definition info3 : TableInfo :=
  range_by_a [ {| ID := 1; LessThan := ["100"] |};
               {| ID := 2; LessThan := ["200"] |};
               {| ID := 3; LessThan := ["MAXVALUE"] |} ].

(** The single finite boundary 10. *)
Definition info10 : TableInfo :=
  range_by_a [ {| ID := 1; LessThan := ["10"] |} ].

(** A second boundary whose evaluation fails. *)
Definition infoDiv : TableInfo :=
  range_by_a [ {| ID := 1; LessThan := ["10"] |};
               {| ID := 2; LessThan := ["100/0"] |};
               {| ID := 3; LessThan := ["MAXVALUE"] |} ].

(** A second partition whose physical table does not initialise. *)
Definition infoBadID : TableInfo :=
  range_by_a [ {| ID := 1; LessThan := ["10"] |};
               {| ID := -2; LessThan := ["MAXVALUE"] |} ].

(** A boundary that does not compile. *)
Definition infoBadText : TableInfo :=
  range_by_a [ {| ID := 1; LessThan := ["10"] |};
               {| ID := 2; LessThan := ["zz"] |} ].

(** Boundaries none of which can be evaluated. *)
Definition infoAllDiv : TableInfo :=
  range_by_a [ {| ID := 1; LessThan := ["1/0"] |};
               {| ID := 2; LessThan := ["2/0"] |} ].

(** A second definition without a boundary literal. *)
Definition infoNoLiteral : TableInfo :=
  range_by_a [ {| ID := 1; LessThan := ["10"] |};
               {| ID := 2; LessThan := [] |} ].

Definition emptyWorld : World := {| store := []; calls := []; logged := [] |}.

Definition plainTable (tblInfo : TableInfo) : Table :=
  {| Table_tableCommon := {| partitionID := 0; Columns := column_names;
                             indices := []; meta := tblInfo; alloc := tt |} |}.

(** The table [newPartitionedTable] builds, when it builds one. *)
Definition load (tblInfo : TableInfo) : option partitionedTable :=
  match newPartitionedTable (plainTable tblInfo) tblInfo emptyWorld with
  | Return ((Some t, None), _) => Some t
  | _ => None
  end.

(** The table to run the scenarios on: the one the constructor built, or
    one with no expression and no partitions. *)
Definition unbuilt (tblInfo : TableInfo) : partitionedTable :=
  {| embedded_Table := plainTable tblInfo; partitionExpr := None; partitions := ∅ |}.

Definition built (tblInfo : TableInfo) : partitionedTable :=
  match load tblInfo with
  | Some t => t
  | None => unbuilt tblInfo
  end.

(** The physical sub-table of partition [pid]. *)
Definition partitionOf (tblInfo : TableInfo) (pid : Z) : partition :=
  {| partition_tableCommon := (demo_init tblInfo pid column_names tt).1 |}.

Definition worldOf (rows : list row_entry) : World :=
  {| store := rows; calls := []; logged := [] |}.

(** The compiled boundaries of [info10], [infoDiv] and [info3]. *)
Definition partitionExpr10 : PartitionExpr :=
  {| Ranges := [ELt (ECol 0) (EConst 10)];
     UpperBounds := [ELt (ECol 0) (EConst 10)] |}.

Definition partitionExprDiv : PartitionExpr :=
  {| Ranges := [ELt (ECol 0) (EConst 10);
                EAnd (ELt (ECol 0) (EDiv (EConst 100) (EConst 0)))
                     (EGe (ECol 0) (EConst 10));
                EAnd ETrue (EGe (ECol 0) (EDiv (EConst 100) (EConst 0)))];
     UpperBounds := [ELt (ECol 0) (EConst 10);
                     ELt (ECol 0) (EDiv (EConst 100) (EConst 0));
                     ETrue] |}.

Definition partitionExprAllDiv : PartitionExpr :=
  {| Ranges := [ELt (ECol 0) (EDiv (EConst 1) (EConst 0));
                EAnd (ELt (ECol 0) (EDiv (EConst 2) (EConst 0)))
                     (EGe (ECol 0) (EDiv (EConst 1) (EConst 0)))];
     UpperBounds := [ELt (ECol 0) (EDiv (EConst 1) (EConst 0));
                     ELt (ECol 0) (EDiv (EConst 2) (EConst 0))] |}.

Definition partitionExpr3 : PartitionExpr :=
  {| Ranges := [ELt (ECol 0) (EConst 100);
                EAnd (ELt (ECol 0) (EConst 200)) (EGe (ECol 0) (EConst 100));
                EAnd ETrue (EGe (ECol 0) (EConst 200))];
     UpperBounds := [ELt (ECol 0) (EConst 100); ELt (ECol 0) (EConst 200); ETrue] |}.

End Demo.

(** ** The vocabulary of the properties *)

Section Vocabulary.
Context `{EP : ExprPkg} `{TP : !TablePkg}.

(** What evaluating [UpperBounds[i]] against a row signals: [Some true] when
    it evaluates without error to a positive value, [Some false] when it
    evaluates without error to zero or less, [None] on an evaluation error
    (or outside the list). *)
Definition upperBoundSignal (exprs : list Expression) (ctx : SessionCtx)
    (r : list Datum) (i : nat) : option bool :=
  match exprs !! i with
  | Some e =>
      match EvalInt e ctx r with
      | (ret, _, None) => Some (0 <? ret)
      | (_, _, Some _) => None
      end
  | None => None
  end.

(** Monotonic under the locate search: true at an index implies true at
    every later index. *)
Definition monotonic (exprs : list Expression) (ctx : SessionCtx)
    (r : list Datum) : Prop :=
  forall a b : nat, (a < b < length exprs)%nat ->
    upperBoundSignal exprs ctx r a = Some true ->
    upperBoundSignal exprs ctx r b = Some true.

(** The boundary literal of partition [i]: [pi.Definitions[i].LessThan[0]]. *)
Definition boundaryLiteral (pi : PartitionInfo) (i : nat) : option string :=
  match Definitions pi !! i with
  | Some d => LessThan d !! 0%nat
  | None => None
  end.

(** The literal before boundary [i], when there is one to compare with. *)
Definition previousLiteral (pi : PartitionInfo) (i : nat) : option string :=
  match i with
  | O => None
  | S i' => boundaryLiteral pi i'
  end.

(** The predicates of section 4.1 of the specification, as the text handed
    to the compiler: the always-true predicate for the unbounded marker,
    otherwise [(key) < (boundary i)]; for the range, that text and, after the
    first partition, [(key) >= (boundary (i-1))]. *)
Definition spec_upperBoundText (key lit : string) : string :=
  if strings_EqualFold lit "MAXVALUE" then "true"
  else "((" +:+ key +:+ ") < (" +:+ lit +:+ "))".

Definition spec_rangeText (key : string) (prev : option string) (lit : string)
    : string :=
  match prev with
  | None => spec_upperBoundText key lit
  | Some p =>
      spec_upperBoundText key lit +:+ " and ((" +:+ key +:+ ") >= (" +:+ p +:+ "))"
  end.

Definition spec_UpperBound (tblInfo : TableInfo) (pi : PartitionInfo) (i : nat)
    : option (Result Error Expression) :=
  match boundaryLiteral pi i with
  | Some lit =>
      Some (ParseSimpleExprWithTableInfo mock_NewContext
              (spec_upperBoundText (Expr pi) lit) tblInfo)
  | None => None
  end.

Definition spec_Range (tblInfo : TableInfo) (pi : PartitionInfo) (i : nat)
    : option (Result Error Expression) :=
  match boundaryLiteral pi i with
  | Some lit =>
      match i with
      | O =>
          Some (ParseSimpleExprWithTableInfo mock_NewContext
                  (spec_rangeText (Expr pi) None lit) tblInfo)
      | S i' =>
          match boundaryLiteral pi i' with
          | Some prev =>
              Some (ParseSimpleExprWithTableInfo mock_NewContext
                      (spec_rangeText (Expr pi) (Some prev) lit) tblInfo)
          | None => None
          end
      end
  | None => None
  end.

(** The metadata the constructor can read without a run-time panic: the
    partition info is there and every definition has a boundary literal. *)
Definition readable (tblInfo : TableInfo) (pi : PartitionInfo) : Prop :=
  GetPartitionInfo tblInfo = Some pi /\
  forall i : nat, (i < length (Definitions pi))%nat -> is_Some (boundaryLiteral pi i).

(** Every entry of a registry was initialised for its own key. *)
Definition initialised (tblInfo : TableInfo) (cols : list Column)
    (al : Allocator) (m : gmap Z partition) : Prop :=
  forall (pid : Z) (p : partition), m !! pid = Some p ->
    initTableCommonWithIndices tblInfo pid cols al = (partition_tableCommon p, None).

(** The partition a recorded physical operation was issued on. *)
Definition callPartition (c : Call) : partition :=
  match c with
  | CallAddRecord p _ _ => p
  | CallRemoveRecord p _ _ => p
  | CallUpdateRecord p _ _ _ _ => p
  end.

(** The error, if any, of evaluating [exprs[i]] against the row. *)
Definition evalError (exprs : list Expression) (ctx : SessionCtx)
    (r : list Datum) (i : nat) : option Error :=
  match exprs !! i with
  | Some e => (EvalInt e ctx r).2
  | None => None
  end.

End Vocabulary.

(** ** Proofs *)

Lemma midpoint_bounds (i j : nat) :
  (i < j)%nat -> (i <= (i + j) / 2 < j)%nat.
Proof.
  intros Hij. split.
  - apply Nat.div_le_lower_bound; lia.
  - apply Nat.Div0.div_lt_upper_bound. lia.
Qed.

Section SearchFacts.
Context {V : Type} (f : nat -> V -> Outcome (bool * V)).

(** With [j - i] fuel or more the loop has run to its exit: more fuel
    changes nothing. *)
Lemma sort_Search_loop_fuel (fuel fuel' i j : nat) (v : V) :
  (j - i <= fuel)%nat -> (j - i <= fuel')%nat ->
  sort_Search_loop fuel f i j v = sort_Search_loop fuel' f i j v.
Proof.
  revert fuel' i j v. induction fuel as [|fuel IH]; intros fuel' i j v Hf Hf'.
  - destruct fuel' as [|fuel']; [reflexivity|]. cbn [sort_Search_loop].
    destruct (Nat.ltb_spec i j); [lia | reflexivity].
  - destruct fuel' as [|fuel']; cbn [sort_Search_loop].
    + destruct (Nat.ltb_spec i j); [lia | reflexivity].
    + destruct (Nat.ltb_spec i j) as [Hij|]; [|reflexivity].
      pose proof (midpoint_bounds i j Hij) as Hm.
      destruct (f ((i + j) / 2)%nat v) as [[b v']|msg]; [|reflexivity].
      destruct b; cbn [negb]; apply IH; lia.
Qed.

(** [sort.Search] has run to the exit of its loop: fuel beyond [n] changes
    nothing. *)
Theorem sort_Search_fuel_adequate (n fuel : nat) (v : V) :
  (n <= fuel)%nat ->
  sort_Search_loop fuel f 0 n v = sort_Search n f v.
Proof.
  intros Hfuel. unfold sort_Search. apply sort_Search_loop_fuel; lia.
Qed.

(** Binary search for a threshold: when [f] answers [false] below [target]
    and [true] from [target] on, and keeps the invariant [Inv] of the
    captured variables, the loop ends at [target]. *)
Lemma sort_Search_loop_threshold (Inv : V -> Prop) (n target : nat) :
  (forall h v, (h < target)%nat -> Inv v ->
     exists v', f h v = Return (false, v') /\ Inv v') ->
  (forall h v, (target <= h < n)%nat -> Inv v ->
     exists v', f h v = Return (true, v') /\ Inv v') ->
  forall fuel i j v,
    (i <= target <= j)%nat -> (j <= n)%nat -> (j - i <= fuel)%nat -> Inv v ->
    exists v', sort_Search_loop fuel f i j v = Return (target, v') /\ Inv v'.
Proof.
  intros Hlow Hhigh. induction fuel as [|fuel IH]; intros i j v Hij Hjn Hfuel Hv.
  - cbn [sort_Search_loop]. assert (i = target) by lia. subst. eauto.
  - cbn [sort_Search_loop]. destruct (Nat.ltb_spec i j) as [Hlt|Hge].
    + pose proof (midpoint_bounds i j Hlt) as Hm.
      destruct (lt_dec ((i + j) / 2) target) as [Hbelow|Habove].
      * destruct (Hlow _ v Hbelow Hv) as (v' & -> & Hv'). cbn [negb].
        apply IH; [lia | lia | lia | exact Hv'].
      * destruct (Hhigh ((i + j) / 2)%nat v ltac:(lia) Hv) as (v' & -> & Hv').
        cbn [negb]. apply IH; [lia | lia | lia | exact Hv'].
    + assert (i = target) by lia. subst. eauto.
Qed.

End SearchFacts.

Section LocateFacts.
Context `{EP : ExprPkg}.
Implicit Types (exprs : list Expression) (ctx : SessionCtx) (r : list Datum).
Implicit Types (v : SearchVars) (t : partitionedTable).

Lemma upperBoundSignal_lt exprs ctx r (i : nat) (b : bool) :
  upperBoundSignal exprs ctx r i = Some b -> (i < length exprs)%nat.
Proof.
  unfold upperBoundSignal. destruct (exprs !! i) as [e|] eqn:He; [|discriminate].
  intros _. apply lookup_lt_Some in He. exact He.
Qed.

(** The closure answers [false] only where the bound evaluates to false. *)
Lemma locateClosure_false exprs ctx r (h : nat) v v' :
  locateClosure exprs ctx r h v = Return (false, v') ->
  upperBoundSignal exprs ctx r h = Some false.
Proof.
  unfold upperBoundSignal, locateClosure, index.
  destruct (exprs !! h) as [e|]; [|discriminate]. cbn [outcome_bind].
  destruct (EvalInt e ctx r) as [[ret isNull] [e'|]]; [discriminate|].
  intros [= -> _]. reflexivity.
Qed.

Lemma locateClosure_signal exprs ctx r (h : nat) v (b : bool) :
  upperBoundSignal exprs ctx r h = Some b ->
  locateClosure exprs ctx r h v
  = Return (b, {| err := None; probes := probes v ++ [h] |}).
Proof.
  unfold upperBoundSignal, locateClosure, index.
  destruct (exprs !! h) as [e|]; [|discriminate]. cbn [outcome_bind].
  destruct (EvalInt e ctx r) as [[ret isNull] [e'|]]; [discriminate|].
  intros [= <-]. reflexivity.
Qed.

(** Inside the list the closure returns; it answers [false] only after an
    evaluation without error, and it records the probe. *)
Lemma locateClosure_returns exprs ctx r (h : nat) v :
  (h < length exprs)%nat ->
  exists b v', locateClosure exprs ctx r h v = Return (b, v') /\
    (b = false -> err v' = None) /\ probes v' = probes v ++ [h].
Proof.
  intros Hh. destruct (lookup_lt_is_Some_2 exprs h Hh) as [e He].
  unfold locateClosure, index. rewrite He. cbn [outcome_bind].
  destruct (EvalInt e ctx r) as [[ret isNull] [e'|]].
  - eexists _, _. split; [reflexivity|]. split; [discriminate | reflexivity].
  - eexists _, _. split; [reflexivity|]. split; reflexivity.
Qed.

(** The loop of the search over the closure: it returns an index between
    its bounds, and it ends at the length of the list only with [err] nil. *)
Lemma locateSearch_loop_returns exprs ctx r :
  forall (fuel i j : nat) v,
    (i <= j <= length exprs)%nat -> (j - i <= fuel)%nat ->
    (j = length exprs -> err v = None) ->
    exists idx v',
      sort_Search_loop fuel (locateClosure exprs ctx r) i j v = Return (idx, v') /\
      (i <= idx <= j)%nat /\ (idx = length exprs -> err v' = None).
Proof.
  induction fuel as [|fuel IH]; intros i j v Hij Hfuel Herr.
  - cbn [sort_Search_loop]. exists i, v. split; [reflexivity|].
    split; [lia|]. intros ->. apply Herr. lia.
  - cbn [sort_Search_loop]. destruct (Nat.ltb_spec i j) as [Hlt|Hge].
    + pose proof (midpoint_bounds i j Hlt) as Hm.
      destruct (locateClosure_returns exprs ctx r ((i + j) / 2)%nat v ltac:(lia))
        as (b & v' & -> & Hb & _).
      destruct b; cbn [negb].
      * destruct (IH i ((i + j) / 2)%nat v') as (idx & v'' & -> & Hidx & Hn);
          [lia | lia | intros; lia |].
        exists idx, v''. split; [reflexivity|]. split; [lia|]. intros; lia.
      * destruct (IH ((i + j) / 2 + 1)%nat j v') as (idx & v'' & -> & Hidx & Hn);
          [lia | lia | intros; auto |].
        exists idx, v''. split; [reflexivity|]. split; [lia | exact Hn].
    + exists i, v. split; [reflexivity|]. split; [lia|]. intros ->. apply Herr. lia.
Qed.

(** The search of [locatePartition] never panics and stays within
    [0 .. len]; at [len] no error is pending. *)
Lemma locateSearch_returns exprs ctx r :
  exists idx v, locateSearch exprs ctx r = Return (idx, v) /\
    (idx <= length exprs)%nat /\ (idx = length exprs -> err v = None).
Proof.
  unfold locateSearch, sort_Search.
  destruct (locateSearch_loop_returns exprs ctx r (length exprs) 0 (length exprs)
              {| err := None; probes := [] |}) as (idx & v & Heq & Hidx & Hn);
    [lia | lia | reflexivity |].
  exists idx, v. split; [exact Heq|]. split; [lia | exact Hn].
Qed.

(** An index outside the partitions gives the no-matching-partition
    error. *)
Lemma locatePartition_out_of_range t ctx (pi : option PartitionInfo) r
    (pe : PartitionExpr) (idx : nat) v :
  partitionExpr t = Some pe ->
  locateSearch (UpperBounds pe) ctx r = Return (idx, v) ->
  (idx < 0 \/ length (UpperBounds pe) <= idx)%nat ->
  locatePartition t ctx pi r = Return (0, Some ErrTrgInvalidCreationCtx).
Proof.
  intros Hpe Hsearch Hout. unfold locatePartition. rewrite Hpe.
  cbn [outcome_bind]. rewrite Hsearch. cbn [outcome_bind].
  destruct (locateSearch_returns (UpperBounds pe) ctx r)
    as (idx' & v' & Heq & Hle & Hnil).
  rewrite Hsearch in Heq. injection Heq as <- <-.
  rewrite Hnil by lia.
  destruct (Nat.leb_spec (length (UpperBounds pe)) idx) as [_|Hlt]; [|lia].
  rewrite orb_true_r. reflexivity.
Qed.

(** What a successful locate returns: the identifier of the definition at
    an index inside the partitions. *)
Lemma locatePartition_success t ctx (pi : option PartitionInfo) r (pid : Z) :
  locatePartition t ctx pi r = Return (pid, None) ->
  exists (pe : PartitionExpr) (pi' : PartitionInfo) (idx : nat)
         (d : PartitionDefinition),
    partitionExpr t = Some pe /\ pi = Some pi' /\
    (idx < length (UpperBounds pe))%nat /\
    Definitions pi' !! idx = Some d /\ ID d = pid.
Proof.
  unfold locatePartition. destruct (partitionExpr t) as [pe|]; [|discriminate].
  cbn [outcome_bind].
  destruct (locateSearch (UpperBounds pe) ctx r) as [[idx v]|]; [|discriminate].
  cbn [outcome_bind]. destruct (err v); [discriminate|].
  destruct (Nat.ltb_spec idx 0) as [|_]; [lia|]. cbn [orb].
  destruct (Nat.leb_spec (length (UpperBounds pe)) idx) as [|Hlt]; [discriminate|].
  destruct pi as [pi'|]; [|discriminate]. unfold index.
  destruct (Definitions pi' !! idx) as [d|] eqn:Hd; [|discriminate].
  cbn [outcome_bind]. intros [= <-]. exists pe, pi', idx, d. auto.
Qed.

(** The closure cannot stop [sort.Search]: after a probe that fails the
    search goes on, and a later probe that evaluates without error puts nil
    back into [err].  With three upper bounds, the second failing for the
    row and the first evaluating to false, the search probes index 1, then
    index 0, and [locatePartition] returns the identifier of the second
    definition and no error. *)
Lemma locatePartition_error_overwritten t ctx (pi : PartitionInfo) r
    (pe : PartitionExpr) (e0 e1 e2 : Expression) (d1 : PartitionDefinition)
    (ret0 ret1 : Z) (isNull0 isNull1 : bool) (err1 : Error) :
  partitionExpr t = Some pe ->
  UpperBounds pe = [e0; e1; e2] ->
  EvalInt e1 ctx r = (ret1, isNull1, Some err1) ->
  EvalInt e0 ctx r = (ret0, isNull0, None) ->
  ret0 <= 0 ->
  Definitions pi !! 1%nat = Some d1 ->
  locateSearch (UpperBounds pe) ctx r
  = Return (1%nat, {| err := None; probes := [1%nat; 0%nat] |}) /\
  locatePartition t ctx (Some pi) r = Return (ID d1, None).
Proof.
  intros Hpe Hub He1 He0 Hret0 Hd1.
  assert (Hsearch : locateSearch (UpperBounds pe) ctx r
                    = Return (1%nat, {| err := None; probes := [1%nat; 0%nat] |})).
  { rewrite Hub. unfold locateSearch, sort_Search. cbn [length sort_Search_loop].
    change ((0 + 3) / 2)%nat with 1%nat. change (0 <? 3)%nat with true.
    cbv iota. unfold locateClosure at 1. cbn [index lookup list_lookup outcome_bind].
    rewrite He1. cbn [negb probes app].
    change (0 <? 1)%nat with true. change ((0 + 1) / 2)%nat with 0%nat.
    cbv iota. unfold locateClosure at 1. cbn [index lookup list_lookup outcome_bind].
    rewrite He0. cbn [probes app].
    destruct (Z.ltb_spec 0 ret0) as [|_]; [lia|]. cbn [negb].
    change (0 + 1 <? 1)%nat with false. reflexivity. }
  split; [exact Hsearch|].
  unfold locatePartition. rewrite Hpe. cbn [outcome_bind]. rewrite Hsearch.
  cbn [outcome_bind err]. rewrite Hub. cbn [length].
  change ((1 <? 0)%nat || (3 <=? 1)%nat) with false. cbv iota.
  unfold index. rewrite Hd1. reflexivity.
Qed.

(** C1.  On a table whose upper bounds are monotonic for the row, where
    [UpperBounds[i]] evaluates to true and every earlier bound evaluates to
    false, [locatePartition] returns the identifier of definition [i]; that
    [i] is the smallest index whose bound is true, and the only index whose
    bound is true with all earlier bounds false. *)
Theorem locatePartition_smallest_true t ctx (pi : PartitionInfo) r
    (pe : PartitionExpr) (i : nat) (d : PartitionDefinition) :
  partitionExpr t = Some pe ->
  monotonic (UpperBounds pe) ctx r ->
  upperBoundSignal (UpperBounds pe) ctx r i = Some true ->
  (forall j : nat, (j < i)%nat ->
     upperBoundSignal (UpperBounds pe) ctx r j = Some false) ->
  Definitions pi !! i = Some d ->
  locatePartition t ctx (Some pi) r = Return (ID d, None) /\
  (forall k : nat, upperBoundSignal (UpperBounds pe) ctx r k = Some true ->
     (i <= k)%nat) /\
  (forall k : nat, upperBoundSignal (UpperBounds pe) ctx r k = Some true ->
     (forall j : nat, (j < k)%nat ->
        upperBoundSignal (UpperBounds pe) ctx r j = Some false) ->
     k = i).
Proof.
  intros Hpe Hmono Htrue Hfalse Hd.
  pose proof (upperBoundSignal_lt _ _ _ _ _ Htrue) as Hi.
  assert (Hleast : forall k : nat,
             upperBoundSignal (UpperBounds pe) ctx r k = Some true -> (i <= k)%nat).
  { intros k Hk. destruct (le_lt_dec i k) as [|Hlt]; [assumption|].
    rewrite (Hfalse k Hlt) in Hk. discriminate. }
  split; [|split; [exact Hleast|]].
  - destruct (sort_Search_loop_threshold (locateClosure (UpperBounds pe) ctx r)
                (fun v => err v = None) (length (UpperBounds pe)) i)
      with (fuel := length (UpperBounds pe)) (i := 0%nat)
           (j := length (UpperBounds pe)) (v := {| err := None; probes := [] |})
      as (v' & Hsearch & Herr).
    + intros h v Hh _. eexists. split.
      * apply locateClosure_signal. auto.
      * reflexivity.
    + intros h v [Hlo Hhi] _. eexists. split.
      * apply locateClosure_signal.
        destruct (Nat.eq_dec h i) as [->|Hne]; [assumption|].
        apply (Hmono i h); [lia | assumption].
      * reflexivity.
    + lia.
    + lia.
    + lia.
    + reflexivity.
    + unfold locatePartition. rewrite Hpe. cbn [outcome_bind].
      unfold locateSearch, sort_Search. rewrite Hsearch. cbn [outcome_bind].
      rewrite Herr.
      destruct (Nat.ltb_spec i 0) as [|_]; [lia|]. cbn [orb].
      destruct (Nat.leb_spec (length (UpperBounds pe)) i) as [|_]; [lia|].
      unfold index. rewrite Hd. reflexivity.
  - intros k Hk Hbelow. destruct (lt_eq_lt_dec k i) as [[Hlt| ->]|Hgt].
    + rewrite (Hfalse k Hlt) in Hk. discriminate.
    + reflexivity.
    + rewrite (Hbelow i Hgt) in Htrue. discriminate.
Qed.

(** Where the loop ends above its lower bound, the bound just below the
    result evaluated to false. *)
Lemma locateSearch_loop_last_probe exprs ctx r :
  forall (fuel i j : nat) v,
    (i <= j <= length exprs)%nat -> (j - i <= fuel)%nat ->
    exists idx v',
      sort_Search_loop fuel (locateClosure exprs ctx r) i j v = Return (idx, v') /\
      (idx = i \/ upperBoundSignal exprs ctx r (idx - 1) = Some false).
Proof.
  induction fuel as [|fuel IH]; intros i j v Hij Hfuel.
  - cbn [sort_Search_loop]. eauto.
  - cbn [sort_Search_loop]. destruct (Nat.ltb_spec i j) as [Hlt|Hge]; [|eauto].
    pose proof (midpoint_bounds i j Hlt) as Hm.
    destruct (locateClosure_returns exprs ctx r ((i + j) / 2)%nat v ltac:(lia))
      as (b & v' & Hclosure & _ & _).
    rewrite Hclosure. destruct b; cbn [negb].
    + apply IH; lia.
    + destruct (IH ((i + j) / 2 + 1)%nat j v') as (idx & v'' & -> & Hidx);
        [lia | lia |].
      exists idx, v''. split; [reflexivity|]. right.
      destruct Hidx as [->|Hidx]; [|exact Hidx].
      replace ((i + j) / 2 + 1 - 1)%nat with ((i + j) / 2)%nat by lia.
      exact (locateClosure_false _ _ _ _ _ _ Hclosure).
Qed.

(** Coverage.  When the last upper bound evaluates to true for the row (as
    the unbounded marker does), the search ends inside the partitions: the
    no-matching-partition branch is not taken. *)
Theorem locateSearch_covered exprs ctx r :
  upperBoundSignal exprs ctx r (length exprs - 1) = Some true ->
  exists (idx : nat) v,
    locateSearch exprs ctx r = Return (idx, v) /\ (idx < length exprs)%nat.
Proof.
  intros Hlast. pose proof (upperBoundSignal_lt _ _ _ _ _ Hlast) as Hn.
  destruct (locateSearch_returns exprs ctx r) as (idx & v & Heq & Hle & _).
  exists idx, v. split; [exact Heq|].
  destruct (locateSearch_loop_last_probe exprs ctx r (length exprs) 0
              (length exprs) {| err := None; probes := [] |})
    as (idx' & v' & Heq' & Hidx); [lia | lia |].
  unfold locateSearch, sort_Search in Heq. rewrite Heq in Heq'.
  injection Heq' as <- <-.
  destruct Hidx as [->|Hidx]; [lia|].
  destruct (Nat.eq_dec idx (length exprs)) as [->|]; [|lia].
  rewrite Hlast in Hidx. discriminate.
Qed.

End LocateFacts.

Section CompilerFacts.
Context `{EP : ExprPkg}.
Implicit Types (tblInfo : TableInfo) (pi : PartitionInfo) (w : World).

Lemma spec_UpperBound_text tblInfo pi (i : nat) (lit : string) :
  boundaryLiteral pi i = Some lit ->
  spec_UpperBound tblInfo pi i
  = Some (ParseSimpleExprWithTableInfo mock_NewContext
            (spec_upperBoundText (Expr pi) lit) tblInfo).
Proof. intros Hlit. unfold spec_UpperBound. rewrite Hlit. reflexivity. Qed.

Lemma spec_Range_text tblInfo pi (i : nat) (lit : string) :
  boundaryLiteral pi i = Some lit ->
  (forall i', i = S i' -> is_Some (boundaryLiteral pi i')) ->
  spec_Range tblInfo pi i
  = Some (ParseSimpleExprWithTableInfo mock_NewContext
            (spec_rangeText (Expr pi) (previousLiteral pi i) lit) tblInfo).
Proof.
  intros Hlit Hprev. unfold spec_Range. rewrite Hlit.
  destruct i as [|i']; [reflexivity|].
  destruct (Hprev i' eq_refl) as [prev Hp]. cbn [previousLiteral].
  rewrite Hp. reflexivity.
Qed.

(** One pass of the loop, in the words of the specification: compile the
    upper bound, then the range, then go on with the next index. *)
Lemma generatePartitionExpr_loop_step tblInfo pi (todo i : nat)
    (prune locate : list Expression) w (lit : string) :
  boundaryLiteral pi i = Some lit ->
  (forall i', i = S i' -> is_Some (boundaryLiteral pi i')) ->
  generatePartitionExpr_loop (S todo) i tblInfo pi mock_NewContext prune locate "" w
  = match ParseSimpleExprWithTableInfo mock_NewContext
            (spec_upperBoundText (Expr pi) lit) tblInfo with
    | Err e =>
        Return ((None, Some e),
                {| store := store w; calls := calls w;
                   logged := logged w ++
                     [log_Error ["wrong table partition expression:";
                                 errors_ErrorStack e;
                                 spec_upperBoundText (Expr pi) lit]] |})
    | Ok u =>
        match ParseSimpleExprWithTableInfo mock_NewContext
                (spec_rangeText (Expr pi) (previousLiteral pi i) lit) tblInfo with
        | Err e =>
            Return ((None, Some e),
                    {| store := store w; calls := calls w;
                       logged := logged w ++
                         [log_Error ["wrong table partition expression:";
                                     errors_ErrorStack e;
                                     spec_rangeText (Expr pi)
                                       (previousLiteral pi i) lit]] |})
        | Ok rg =>
            generatePartitionExpr_loop todo (i + 1) tblInfo pi mock_NewContext
              (prune ++ [rg]) (locate ++ [u]) "" w
        end
    end.
Proof.
  intros Hlit Hprev. unfold boundaryLiteral in Hlit.
  destruct (Definitions pi !! i) as [d|] eqn:Hd; [|discriminate].
  cbn [generatePartitionExpr_loop]. unfold bind at 1, lift at 1, index at 1.
  rewrite Hd. unfold bind at 1, lift at 1, index at 1. rewrite Hlit.
  assert (Htext : (if strings_EqualFold lit "MAXVALUE" then "" +:+ "true"
                   else "" +:+ "((" +:+ Expr pi +:+ ") < (" +:+ lit +:+ "))")
                  = spec_upperBoundText (Expr pi) lit) by reflexivity.
  rewrite Htext. clear Htext.
  destruct (ParseSimpleExprWithTableInfo mock_NewContext
              (spec_upperBoundText (Expr pi) lit) tblInfo) as [u|e];
    [|reflexivity].
  destruct i as [|i'].
  - cbn [Nat.ltb Nat.leb previousLiteral spec_rangeText]. unfold bind at 1, ret at 1.
    destruct (ParseSimpleExprWithTableInfo mock_NewContext
                (spec_upperBoundText (Expr pi) lit) tblInfo) as [rg|e];
      reflexivity.
  - destruct (Hprev i' eq_refl) as [prev Hp]. cbn [previousLiteral]. rewrite Hp.
    unfold boundaryLiteral in Hp.
    destruct (Definitions pi !! i') as [d'|] eqn:Hd'; [|discriminate].
    replace (0 <? S i')%nat with true by reflexivity.
    replace (S i' - 1)%nat with i' by lia.
    unfold bind at 1. unfold bind at 1, lift at 1, index at 1. rewrite Hd'.
    unfold bind at 1, lift at 1, index at 1. rewrite Hp. unfold ret at 1.
    cbn [spec_rangeText].
    destruct (ParseSimpleExprWithTableInfo mock_NewContext
                (spec_upperBoundText (Expr pi) lit +:+ " and ((" +:+ Expr pi
                 +:+ ") >= (" +:+ prev +:+ "))") tblInfo) as [rg|e];
      reflexivity.
Qed.

(** When every remaining predicate compiles, the loop returns the lists
    extended by the compiled predicates, in order, and leaves the world as
    it was. *)
Lemma generatePartitionExpr_loop_ok tblInfo pi :
  forall (todo i : nat) (prune locate : list Expression) w,
    (i + todo = length (Definitions pi))%nat ->
    (forall k : nat, (k < length (Definitions pi))%nat ->
       exists u rg, spec_UpperBound tblInfo pi k = Some (Ok u) /\
                    spec_Range tblInfo pi k = Some (Ok rg)) ->
    exists us rs : list Expression,
      generatePartitionExpr_loop todo i tblInfo pi mock_NewContext prune locate "" w
      = Return ((Some {| Ranges := prune ++ rs; UpperBounds := locate ++ us |},
                 None), w) /\
      length us = todo /\ length rs = todo /\
      forall k : nat, (k < todo)%nat ->
        (exists u, us !! k = Some u /\
                   spec_UpperBound tblInfo pi (i + k) = Some (Ok u)) /\
        (exists rg, rs !! k = Some rg /\
                    spec_Range tblInfo pi (i + k) = Some (Ok rg)).
Proof.
  induction todo as [|todo IH]; intros i prune locate w Hlen Hall.
  - exists [], []. cbn [generatePartitionExpr_loop]. rewrite !app_nil_r.
    repeat split; try reflexivity; intros; lia.
  - assert (Hlits : forall k : nat, (k < length (Definitions pi))%nat ->
                      is_Some (boundaryLiteral pi k)).
    { intros k Hk. destruct (Hall k Hk) as (u & _ & Hu & _).
      unfold spec_UpperBound in Hu.
      destruct (boundaryLiteral pi k); [eauto | discriminate]. }
    destruct (Hlits i ltac:(lia)) as [lit Hlit].
    assert (Hprev : forall i', i = S i' -> is_Some (boundaryLiteral pi i')).
    { intros i' ->. apply Hlits. lia. }
    destruct (Hall i ltac:(lia)) as (u & rg & Hu & Hrg).
    rewrite (generatePartitionExpr_loop_step _ _ _ _ _ _ _ lit Hlit Hprev).
    rewrite (spec_UpperBound_text _ _ _ _ Hlit) in Hu.
    rewrite (spec_Range_text _ _ _ _ Hlit Hprev) in Hrg.
    injection Hu as Hu. injection Hrg as Hrg. rewrite Hu, Hrg.
    destruct (IH (i + 1)%nat (prune ++ [rg]) (locate ++ [u]) w ltac:(lia) Hall)
      as (us & rs & Heq & Hus & Hrs & Hk).
    exists (u :: us), (rg :: rs). rewrite Heq, <- !app_assoc. cbn [app].
    split; [reflexivity|]. split; [cbn; lia|]. split; [cbn; lia|].
    intros [|k] Hlt.
    + rewrite Nat.add_0_r, (spec_UpperBound_text _ _ _ _ Hlit),
        (spec_Range_text _ _ _ _ Hlit Hprev), Hu, Hrg.
      split; eexists; split; reflexivity.
    + replace (i + S k)%nat with (i + 1 + k)%nat by lia.
      destruct (Hk k ltac:(lia)) as [Hku Hkr]. split; assumption.
Qed.

(** When the metadata is readable and some predicate does not compile, the
    loop returns an error and no expression. *)
Lemma generatePartitionExpr_loop_fails tblInfo pi :
  (forall k : nat, (k < length (Definitions pi))%nat ->
     is_Some (boundaryLiteral pi k)) ->
  forall (todo i : nat) (prune locate : list Expression) w,
    (i + todo = length (Definitions pi))%nat ->
    (exists (k : nat) (e : Error), (i <= k < length (Definitions pi))%nat /\
       (spec_UpperBound tblInfo pi k = Some (Err e) \/
        spec_Range tblInfo pi k = Some (Err e))) ->
    exists (e : Error) w',
      generatePartitionExpr_loop todo i tblInfo pi mock_NewContext prune locate "" w
      = Return ((None, Some e), w').
Proof.
  intros Hlits. induction todo as [|todo IH]; intros i prune locate w Hlen Hbad.
  - destruct Hbad as (k & _ & Hk & _). lia.
  - destruct (Hlits i ltac:(lia)) as [lit Hlit].
    assert (Hprev : forall i', i = S i' -> is_Some (boundaryLiteral pi i')).
    { intros i' ->. apply Hlits. lia. }
    rewrite (generatePartitionExpr_loop_step _ _ _ _ _ _ _ lit Hlit Hprev).
    destruct (ParseSimpleExprWithTableInfo mock_NewContext
                (spec_upperBoundText (Expr pi) lit) tblInfo) as [u|e] eqn:Hu;
      [|eauto].
    destruct (ParseSimpleExprWithTableInfo mock_NewContext
                (spec_rangeText (Expr pi) (previousLiteral pi i) lit) tblInfo)
      as [rg|e] eqn:Hrg; [|eauto].
    apply IH; [lia|]. destruct Hbad as (k & e & Hk & Hfail).
    exists k, e. split; [|exact Hfail].
    destruct (Nat.eq_dec k i) as [->|Hne]; [|lia].
    rewrite (spec_UpperBound_text _ _ _ _ Hlit),
      (spec_Range_text _ _ _ _ Hlit Hprev), Hu, Hrg in Hfail.
    destruct Hfail as [Hfail|Hfail]; discriminate.
Qed.

(** Whatever the loop returns is either an error and no expression, or an
    expression and no error; then both lists have grown by one predicate
    per remaining definition and the world is as it was. *)
Lemma generatePartitionExpr_loop_shape tblInfo pi (ctx : SessionCtx) :
  forall (todo i : nat) (prune locate : list Expression) (buf : string) w
         (res : option PartitionExpr) (e : option Error) w',
    generatePartitionExpr_loop todo i tblInfo pi ctx prune locate buf w
    = Return ((res, e), w') ->
    (res = None /\ is_Some e) \/
    (e = None /\ w' = w /\ exists pe : PartitionExpr, res = Some pe /\
       length (UpperBounds pe) = (length locate + todo)%nat /\
       length (Ranges pe) = (length prune + todo)%nat).
Proof.
  induction todo as [|todo IH]; intros i prune locate buf w res e w' Heq.
  - cbn in Heq. injection Heq as <- <- <-. right.
    split; [reflexivity|]. split; [reflexivity|].
    eexists. split; [reflexivity|]. cbn. lia.
  - cbn [generatePartitionExpr_loop] in Heq.
    unfold bind at 1, lift at 1, index at 1 in Heq.
    destruct (Definitions pi !! i) as [d|]; [|discriminate].
    unfold bind at 1, lift at 1, index at 1 in Heq.
    destruct (LessThan d !! 0%nat) as [lit|]; [|discriminate].
    destruct (ParseSimpleExprWithTableInfo ctx _ tblInfo) as [u|err1].
    2:{ cbn in Heq. injection Heq as <- <- <-. left. eauto. }
    unfold bind at 1 in Heq.
    destruct (0 <? i)%nat.
    + unfold bind at 1, lift at 1, index at 1 in Heq.
      destruct (Definitions pi !! (i - 1)%nat) as [d'|]; [|discriminate].
      unfold bind at 1, lift at 1, index at 1 in Heq.
      destruct (LessThan d' !! 0%nat) as [prev|]; [|discriminate].
      unfold ret at 1 in Heq.
      destruct (ParseSimpleExprWithTableInfo ctx _ tblInfo) as [rg|err2].
      2:{ cbn in Heq. injection Heq as <- <- <-. left. eauto. }
      apply IH in Heq. destruct Heq as [Hl|(-> & -> & pe & -> & Hu & Hr)];
        [left; exact Hl|].
      right. split; [reflexivity|]. split; [reflexivity|].
      exists pe. split; [reflexivity|]. rewrite length_app in Hu, Hr. cbn in *. lia.
    + unfold ret at 1 in Heq.
      destruct (ParseSimpleExprWithTableInfo ctx _ tblInfo) as [rg|err2].
      2:{ cbn in Heq. injection Heq as <- <- <-. left. eauto. }
      apply IH in Heq. destruct Heq as [Hl|(-> & -> & pe & -> & Hu & Hr)];
        [left; exact Hl|].
      right. split; [reflexivity|]. split; [reflexivity|].
      exists pe. split; [reflexivity|]. rewrite length_app in Hu, Hr. cbn in *. lia.
Qed.

End CompilerFacts.

Section ConstructorFacts.
Context `{EP : ExprPkg} `{TP : !TablePkg}.
Implicit Types (tblInfo : TableInfo) (pi : PartitionInfo) (w : World).
Implicit Types (tbl : Table) (m : gmap Z partition).

(** C5.  For metadata with [n] partition definitions on which every
    predicate compiles, [generatePartitionExpr] returns, without touching
    the world, [UpperBounds] and [Ranges] of length [n]; [UpperBounds[i]] is
    the compiled always-true text when boundary [i] is the unbounded marker
    and the compiled [(key) < (boundary i)] otherwise; [Ranges[i]] is the
    compiled text of [UpperBounds[i]], extended for [i > 0] by
    [and (key) >= (boundary (i-1))]; [Ranges[0]] equals [UpperBounds[0]]. *)
Theorem generatePartitionExpr_compiles tblInfo pi w :
  GetPartitionInfo tblInfo = Some pi ->
  (forall k : nat, (k < length (Definitions pi))%nat ->
     exists u rg, spec_UpperBound tblInfo pi k = Some (Ok u) /\
                  spec_Range tblInfo pi k = Some (Ok rg)) ->
  exists pe : PartitionExpr,
    generatePartitionExpr tblInfo w = Return ((Some pe, None), w) /\
    length (UpperBounds pe) = length (Definitions pi) /\
    length (Ranges pe) = length (Definitions pi) /\
    (forall i : nat, (i < length (Definitions pi))%nat ->
       (exists u, UpperBounds pe !! i = Some u /\
                  spec_UpperBound tblInfo pi i = Some (Ok u)) /\
       (exists rg, Ranges pe !! i = Some rg /\
                   spec_Range tblInfo pi i = Some (Ok rg))) /\
    Ranges pe !! 0%nat = UpperBounds pe !! 0%nat.
Proof.
  intros Hpi Hall. unfold generatePartitionExpr. rewrite Hpi.
  destruct (generatePartitionExpr_loop_ok tblInfo pi (length (Definitions pi)) 0
              [] [] w eq_refl Hall) as (us & rs & Heq & Hus & Hrs & Hk).
  exists {| Ranges := rs; UpperBounds := us |}. rewrite Heq. cbn [app Ranges UpperBounds].
  split; [reflexivity|]. split; [exact Hus|]. split; [exact Hrs|]. split.
  - intros i Hi. exact (Hk i Hi).
  - destruct (Definitions pi) as [|d defs] eqn:Hdefs.
    + cbn in Hus, Hrs. destruct us, rs; try discriminate. reflexivity.
    + destruct (Hk 0%nat ltac:(cbn; lia)) as [(u & Hu & Hsu) (rg & Hrg & Hsr)].
      rewrite Hu, Hrg. cbn [Nat.add] in Hsu, Hsr.
      unfold spec_UpperBound in Hsu. unfold spec_Range in Hsr.
      destruct (boundaryLiteral pi 0) as [lit|]; [|discriminate].
      cbn [spec_rangeText] in Hsr. rewrite Hsu in Hsr. congruence.
Qed.

(** With readable metadata the boundary compiler returns (it does not
    panic). *)
Lemma generatePartitionExpr_loop_returns tblInfo pi :
  (forall k : nat, (k < length (Definitions pi))%nat ->
     is_Some (boundaryLiteral pi k)) ->
  forall (todo i : nat) (prune locate : list Expression) w,
    (i + todo = length (Definitions pi))%nat ->
    exists res e w',
      generatePartitionExpr_loop todo i tblInfo pi mock_NewContext prune locate "" w
      = Return ((res, e), w').
Proof.
  intros Hlits. induction todo as [|todo IH]; intros i prune locate w Hlen.
  - cbn. eauto.
  - destruct (Hlits i ltac:(lia)) as [lit Hlit].
    assert (Hprev : forall i', i = S i' -> is_Some (boundaryLiteral pi i')).
    { intros i' ->. apply Hlits. lia. }
    rewrite (generatePartitionExpr_loop_step _ _ _ _ _ _ _ lit Hlit Hprev).
    destruct (ParseSimpleExprWithTableInfo mock_NewContext
                (spec_upperBoundText (Expr pi) lit) tblInfo); [|eauto].
    destruct (ParseSimpleExprWithTableInfo mock_NewContext
                (spec_rangeText (Expr pi) (previousLiteral pi i) lit) tblInfo);
      [|eauto].
    apply IH. lia.
Qed.

Lemma newPartitionedTable_loop_ok tblInfo tbl :
  forall (defs : list PartitionDefinition) m m',
    newPartitionedTable_loop defs tbl tblInfo m = Ok m' ->
    initialised tblInfo (Columns (Table_tableCommon tbl))
      (alloc (Table_tableCommon tbl)) m ->
    initialised tblInfo (Columns (Table_tableCommon tbl))
      (alloc (Table_tableCommon tbl)) m' /\
    dom m' = dom m ∪ list_to_set (ID <$> defs).
Proof.
  induction defs as [|d defs IH]; intros m m' Heq Hinit.
  - cbn in Heq. injection Heq as <-. split; [exact Hinit|]. cbn. set_solver.
  - cbn [newPartitionedTable_loop] in Heq.
    destruct (initTableCommonWithIndices tblInfo (ID d) _ _) as [tc [e|]] eqn:Hd;
      [discriminate|].
    apply IH in Heq.
    + destruct Heq as [Hinit' Hdom]. split; [exact Hinit'|].
      rewrite Hdom, dom_insert_L. cbn. set_solver.
    + intros pid p Hp. destruct (decide (ID d = pid)) as [<-|Hne].
      * rewrite lookup_insert_eq in Hp. injection Hp as <-. exact Hd.
      * rewrite lookup_insert_ne in Hp by exact Hne. apply Hinit. exact Hp.
Qed.

Lemma newPartitionedTable_loop_fails tblInfo tbl :
  forall (defs : list PartitionDefinition) m,
    (exists d, d ∈ defs /\
       is_Some (initTableCommonWithIndices tblInfo (ID d)
                  (Columns (Table_tableCommon tbl))
                  (alloc (Table_tableCommon tbl))).2) ->
    exists e, newPartitionedTable_loop defs tbl tblInfo m = Err e.
Proof.
  induction defs as [|d defs IH]; intros m (d' & Hin & Hfail).
  - inversion Hin.
  - cbn [newPartitionedTable_loop].
    destruct (initTableCommonWithIndices tblInfo (ID d) _ _) as [tc [e|]] eqn:Hd;
      [eauto|].
    apply IH. apply elem_of_cons in Hin as [->|Hin].
    + rewrite Hd in Hfail. destruct Hfail as [? Hfail]. discriminate.
    + eauto.
Qed.

(** With readable metadata the constructor returns (it does not panic). *)
Lemma generatePartitionExpr_returns tblInfo pi w :
  readable tblInfo pi ->
  exists res e w', generatePartitionExpr tblInfo w = Return ((res, e), w').
Proof.
  intros [Hpi Hlits]. unfold generatePartitionExpr. rewrite Hpi.
  apply generatePartitionExpr_loop_returns; [exact Hlits | reflexivity].
Qed.

Lemma generatePartitionExpr_shape tblInfo w (res : option PartitionExpr)
    (e : option Error) w' :
  generatePartitionExpr tblInfo w = Return ((res, e), w') ->
  (res = None /\ is_Some e) \/
  (e = None /\ w' = w /\ exists pi (pe : PartitionExpr),
     GetPartitionInfo tblInfo = Some pi /\ res = Some pe /\
     length (UpperBounds pe) = length (Definitions pi) /\
     length (Ranges pe) = length (Definitions pi)).
Proof.
  unfold generatePartitionExpr.
  destruct (GetPartitionInfo tblInfo) as [pi|]; [|discriminate].
  intros Heq. apply generatePartitionExpr_loop_shape in Heq.
  destruct Heq as [Hl|(-> & -> & pe & -> & Hu & Hr)]; [left; exact Hl|].
  right. split; [reflexivity|]. split; [reflexivity|]. exists pi, pe. auto.
Qed.

(** What the constructor returns: an error and no table, or a table and
    no error whose registry holds exactly the identifiers of the
    definitions, each entry initialised for its identifier. *)
Lemma newPartitionedTable_shape tbl tblInfo w
    (res : option partitionedTable) (e : option Error) w' :
  newPartitionedTable tbl tblInfo w = Return ((res, e), w') ->
  (res = None /\ is_Some e) \/
  (e = None /\ exists (t : partitionedTable) pi (pe : PartitionExpr),
     res = Some t /\ GetPartitionInfo tblInfo = Some pi /\
     partitionExpr t = Some pe /\
     length (UpperBounds pe) = length (Definitions pi) /\
     initialised tblInfo (Columns (Table_tableCommon (embedded_Table t)))
       (alloc (Table_tableCommon (embedded_Table t))) (partitions t) /\
     dom (partitions t) = list_to_set (ID <$> Definitions pi)).
Proof.
  unfold newPartitionedTable. unfold bind at 1.
  destruct (generatePartitionExpr tblInfo w) as [[[pe e1] w1]|] eqn:Hgen;
    [|discriminate].
  apply generatePartitionExpr_shape in Hgen.
  destruct Hgen as [[-> [e1' ->]]|(-> & -> & pi & pe' & Hpi & -> & Hlen & _)].
  { intros [= <- <- <-]. left. eauto. }
  destruct (initTableIndices (Table_tableCommon tbl)) as [tc [e2|]].
  { intros [= <- <- <-]. left. eauto. }
  rewrite Hpi.
  destruct (newPartitionedTable_loop (Definitions pi)
              {| Table_tableCommon := tc |} tblInfo ∅) as [m|e3] eqn:Hloop.
  2:{ intros [= <- <- <-]. left. eauto. }
  intros [= <- <- <-]. right. split; [reflexivity|].
  eexists _, pi, pe'. split; [reflexivity|]. split; [reflexivity|].
  cbn [partitions embedded_Table Table_tableCommon partitionExpr].
  split; [reflexivity|]. split; [exact Hlen|].
  apply newPartitionedTable_loop_ok in Hloop.
  2:{ intros pid p Hp. rewrite lookup_empty in Hp. discriminate. }
  destruct Hloop as [Hinit Hdom]. rewrite dom_empty_L, (left_id_L ∅ (∪)) in Hdom.
  split; [exact Hinit | exact Hdom].
Qed.

(** C8.  Construction is all-or-nothing.  Whatever [newPartitionedTable]
    returns is either an error and no table, or a table and no error; the
    table has one physical sub-table under the identifier of each partition
    definition, initialised for that identifier, and no other entry (so as
    many entries as definitions when the identifiers are distinct).  With
    readable metadata, if any boundary predicate does not compile, or the
    indices of the table do not initialise, or the sub-table of any
    definition does not initialise, the result is an error and no table. *)
Theorem newPartitionedTable_all_or_nothing tbl tblInfo w :
  (forall (res : option partitionedTable) (e : option Error) w',
     newPartitionedTable tbl tblInfo w = Return ((res, e), w') ->
     (res = None /\ is_Some e) \/
     (e = None /\ exists (t : partitionedTable) pi,
        res = Some t /\ GetPartitionInfo tblInfo = Some pi /\
        (forall d, d ∈ Definitions pi ->
           exists p, partitions t !! ID d = Some p /\
             initTableCommonWithIndices tblInfo (ID d)
               (Columns (Table_tableCommon (embedded_Table t)))
               (alloc (Table_tableCommon (embedded_Table t)))
             = (partition_tableCommon p, None)) /\
        dom (partitions t) = list_to_set (ID <$> Definitions pi) /\
        (NoDup (ID <$> Definitions pi) ->
           size (partitions t) = length (Definitions pi)))) /\
  (forall pi, readable tblInfo pi ->
     (exists (k : nat) (e : Error), (k < length (Definitions pi))%nat /\
        (spec_UpperBound tblInfo pi k = Some (Err e) \/
         spec_Range tblInfo pi k = Some (Err e))) \/
     is_Some (initTableIndices (Table_tableCommon tbl)).2 \/
     (exists d, d ∈ Definitions pi /\
        is_Some (initTableCommonWithIndices tblInfo (ID d)
                   (Columns (initTableIndices (Table_tableCommon tbl)).1)
                   (alloc (initTableIndices (Table_tableCommon tbl)).1)).2) ->
     exists (e : Error) w',
       newPartitionedTable tbl tblInfo w = Return ((None, Some e), w')).
Proof.
  split.
  - intros res e w' Hnew. apply newPartitionedTable_shape in Hnew.
    destruct Hnew as [Hl|(-> & t & pi & pe & -> & Hpi & _ & _ & Hinit & Hdom)];
      [left; exact Hl|].
    right. split; [reflexivity|]. exists t, pi.
    split; [reflexivity|]. split; [exact Hpi|]. split; [|split; [exact Hdom|]].
    + intros d Hd.
      assert (Hin : ID d ∈ dom (partitions t)).
      { rewrite Hdom, elem_of_list_to_set, list_elem_of_fmap. eauto. }
      apply elem_of_dom in Hin as [p Hp]. exists p. split; [exact Hp|].
      apply (Hinit _ _ Hp).
    + intros Hnodup. rewrite <- size_dom, Hdom, size_list_to_set by exact Hnodup.
      apply length_fmap.
  - intros pi Hread Hbad.
    destruct (generatePartitionExpr_returns tblInfo pi w Hread)
      as (pe & e1 & w1 & Hgen).
    unfold newPartitionedTable. unfold bind at 1. rewrite Hgen.
    pose proof (generatePartitionExpr_shape _ _ _ _ _ Hgen) as Hshape.
    destruct Hshape as [[-> [e1' ->]]|(-> & -> & pi' & pe' & Hpi' & -> & _)].
    { unfold ret. eauto. }
    destruct Hread as [Hpi Hlits].
    destruct Hbad as [(k & e & Hk & Hfail)|[Hidx|Hsub]].
    + exfalso. unfold generatePartitionExpr in Hgen. rewrite Hpi in Hgen.
      destruct (generatePartitionExpr_loop_fails tblInfo pi Hlits
                  (length (Definitions pi)) 0 [] [] w eq_refl) as (e' & w' & Hf).
      { exists k, e. split; [lia | exact Hfail]. }
      rewrite Hf in Hgen. discriminate.
    + destruct (initTableIndices (Table_tableCommon tbl)) as [tc [e2|]].
      * unfold ret. eauto.
      * destruct Hidx as [? Hidx]. discriminate.
    + destruct (initTableIndices (Table_tableCommon tbl)) as [tc [e2|]].
      * unfold ret. eauto.
      * rewrite Hpi.
        destruct (newPartitionedTable_loop_fails tblInfo
                    {| Table_tableCommon := tc |} (Definitions pi) ∅ Hsub)
          as [e3 ->].
        unfold ret. eauto.
Qed.

End ConstructorFacts.

Section FacadeFacts.
Context `{EP : ExprPkg} `{TP : !TablePkg}.
Implicit Types (t : partitionedTable) (ctx : SessionCtx) (w : World).
Implicit Types (r currData newData : list Datum) (touched : list bool).

(** C2.  A cross-partition update (both locates succeed, on different
    partitions [from] and [to], the destination registered as [dst]) first
    adds the new row to [dst].  If that add fails with [e], [UpdateRecord]
    returns [e] and the only physical operation issued is that add: nothing
    is done on the source, and the store is as the failed add left it, so
    unchanged when the failed add left it unchanged.  If the add succeeds,
    the remove on the source [src] follows it, and its result is returned. *)
Theorem UpdateRecord_cross_partition t ctx (h : Z) currData newData touched w
    (from to : Z) (dst : partition) :
  locatePartition t ctx
    (GetPartitionInfo (meta (Table_tableCommon (embedded_Table t)))) currData
  = Return (from, None) ->
  locatePartition t ctx
    (GetPartitionInfo (meta (Table_tableCommon (embedded_Table t)))) newData
  = Return (to, None) ->
  from <> to ->
  partitions t !! to = Some dst ->
  (forall (hdl : Z) (e : Error) (st1 : Store),
     tableCommon_AddRecord (partition_tableCommon dst) ctx newData false (store w)
     = ((hdl, Some e), st1) ->
     UpdateRecord t ctx h currData newData touched w
     = Return (Some e, {| store := st1;
                          calls := calls w ++ [CallAddRecord dst newData false];
                          logged := logged w |}) /\
     (st1 = store w ->
      UpdateRecord t ctx h currData newData touched w
      = Return (Some e, {| store := store w;
                           calls := calls w ++ [CallAddRecord dst newData false];
                           logged := logged w |}))) /\
  (forall (src : partition) (hdl : Z) (st1 : Store) (res : option Error)
          (st2 : Store),
     partitions t !! from = Some src ->
     tableCommon_AddRecord (partition_tableCommon dst) ctx newData false (store w)
     = ((hdl, None), st1) ->
     tableCommon_RemoveRecord (partition_tableCommon src) ctx h currData st1
     = (res, st2) ->
     exists lg : list LogEntry,
       UpdateRecord t ctx h currData newData touched w
       = Return (res, {| store := st2;
                         calls := calls w ++ [CallAddRecord dst newData false;
                                              CallRemoveRecord src h currData];
                         logged := lg |})).
Proof.
  intros Hfrom Hto Hne Hdst.
  assert (Hneq : negb (from =? to) = true).
  { apply negb_true_iff, Z.eqb_neq. exact Hne. }
  split.
  - intros hdl e st1 Hadd.
    assert (Hrun : UpdateRecord t ctx h currData newData touched w
                   = Return (Some e, {| store := st1;
                                        calls := calls w ++ [CallAddRecord dst newData false];
                                        logged := logged w |})).
    { unfold UpdateRecord, bind, lift, GetPartition, partition_AddRecord, ret.
      rewrite Hfrom, Hto, Hneq, Hdst, Hadd. reflexivity. }
    split; [exact Hrun|]. intros <-. exact Hrun.
  - intros src hdl st1 res st2 Hsrc Hadd Hrm.
    unfold UpdateRecord, bind, lift, GetPartition, partition_AddRecord,
      partition_RemoveRecord, ret, log_write.
    rewrite Hfrom, Hto, Hneq, Hdst, Hadd. cbn. rewrite Hsrc. cbn. rewrite Hrm. cbn.
    rewrite <- app_assoc. cbn [app].
    destruct res as [e|]; eexists; reflexivity.
Qed.

(** C6.  A same-partition update (both locates succeed on the partition
    [pid], registered as [p]) is the update of [p] alone: the result and the
    store are those of the physical update of [p], and the one operation
    issued is that update. *)
Theorem UpdateRecord_same_partition t ctx (h : Z) currData newData touched w
    (pid : Z) (p : partition) :
  locatePartition t ctx
    (GetPartitionInfo (meta (Table_tableCommon (embedded_Table t)))) currData
  = Return (pid, None) ->
  locatePartition t ctx
    (GetPartitionInfo (meta (Table_tableCommon (embedded_Table t)))) newData
  = Return (pid, None) ->
  partitions t !! pid = Some p ->
  UpdateRecord t ctx h currData newData touched w
  = partition_UpdateRecord (Some p) ctx h currData newData touched w /\
  UpdateRecord t ctx h currData newData touched w
  = Return
      ((tableCommon_UpdateRecord (partition_tableCommon p) ctx h currData newData
          touched (store w)).1,
       {| store := (tableCommon_UpdateRecord (partition_tableCommon p) ctx h
                      currData newData touched (store w)).2;
          calls := calls w ++ [CallUpdateRecord p h currData newData touched];
          logged := logged w |}).
Proof.
  intros Hfrom Hto Hp.
  assert (Hrun : UpdateRecord t ctx h currData newData touched w
                 = partition_UpdateRecord (Some p) ctx h currData newData touched w).
  { unfold UpdateRecord, bind, lift, GetPartition.
    rewrite Hfrom, Hto, Z.eqb_refl, Hp. reflexivity. }
  split; [exact Hrun|]. rewrite Hrun. unfold partition_UpdateRecord.
  destruct (tableCommon_UpdateRecord _ _ _ _ _ _ _). reflexivity.
Qed.

(** C7.  [GetID] of a partitioned table panics, whatever the table: it
    returns no identifier. *)
Theorem GetID_fails_fast t :
  GetID t = Panic "GetID() should never be called on PartitionedTable" /\
  isPanic (GetID t) = true /\
  forall id : Z, GetID t <> Return id.
Proof. split; [reflexivity|]. split; [reflexivity|]. intros id. discriminate. Qed.

(** C9, as the code has it.  [GetPartition] is a map read and never fails:
    for an identifier of the registry it returns that partition's handle,
    for a foreign identifier it returns the nil handle; the failure comes
    when an operation is called through the nil handle, which panics. *)
Theorem GetPartition_lookup t (pid : Z) :
  GetPartition t pid = Return (partitions t !! pid) /\
  (forall p : partition, partitions t !! pid = Some p ->
     GetPartition t pid = Return (Some p)) /\
  (partitions t !! pid = None ->
     GetPartition t pid = Return None /\
     forall ctx (h : Z) r currData newData touched (skipHandleCheck : bool) w,
       partition_AddRecord None ctx r skipHandleCheck w = Panic nil_dereference /\
       partition_RemoveRecord None ctx h r w = Panic nil_dereference /\
       partition_UpdateRecord None ctx h currData newData touched w
       = Panic nil_dereference).
Proof.
  split; [reflexivity|]. split.
  - intros p Hp. unfold GetPartition. rewrite Hp. reflexivity.
  - intros Hnone. unfold GetPartition. rewrite Hnone. split; [reflexivity|].
    intros. repeat split.
Qed.


(** The registry of a table [newPartitionedTable] built from the metadata
    the table carries has the identifier of every definition, and as many
    upper bounds as definitions. *)
Lemma newPartitionedTable_registry (tbl : Table) (tblInfo : TableInfo) w0 w1 t :
  newPartitionedTable tbl tblInfo w0 = Return ((Some t, None), w1) ->
  exists pi (pe : PartitionExpr),
    GetPartitionInfo tblInfo = Some pi /\ partitionExpr t = Some pe /\
    length (UpperBounds pe) = length (Definitions pi) /\
    forall d, d ∈ Definitions pi -> is_Some (partitions t !! ID d).
Proof.
  intros Hnew. apply newPartitionedTable_shape in Hnew.
  destruct Hnew as [[? _]|(_ & t' & pi & pe & [= <-] & Hpi & Hpe & Hlen & _ & Hdom)];
    [discriminate|].
  exists pi, pe. split; [exact Hpi|]. split; [exact Hpe|]. split; [exact Hlen|].
  intros d Hd. apply elem_of_dom.
  rewrite Hdom, elem_of_list_to_set, list_elem_of_fmap. eauto.
Qed.

(** On a table built from the metadata it carries, the identifier a
    successful locate returns belongs to a definition and is a key of the
    registry. *)
Lemma located_is_registered (tbl : Table) (tblInfo : TableInfo) w0 w1 t ctx r
    (pid : Z) :
  newPartitionedTable tbl tblInfo w0 = Return ((Some t, None), w1) ->
  meta (Table_tableCommon (embedded_Table t)) = tblInfo ->
  locatePartition t ctx
    (GetPartitionInfo (meta (Table_tableCommon (embedded_Table t)))) r
  = Return (pid, None) ->
  exists pi d (p : partition),
    GetPartitionInfo tblInfo = Some pi /\ d ∈ Definitions pi /\ ID d = pid /\
    partitions t !! pid = Some p.
Proof.
  intros Hnew Hmeta Hloc.
  destruct (newPartitionedTable_registry _ _ _ _ _ Hnew)
    as (pi & pe & Hpi & Hpe & Hlen & Hreg).
  apply locatePartition_success in Hloc
    as (pe' & pi' & idx & d & Hpe' & Hpi' & Hidx & Hd & <-).
  rewrite Hmeta, Hpi in Hpi'. injection Hpi' as <-.
  assert (Hin : d ∈ Definitions pi) by (apply list_elem_of_lookup; eauto).
  destruct (Hreg d Hin) as [p Hp]. exists pi, d, p. auto.
Qed.

(** C10.  On a table [newPartitionedTable] built from the metadata it
    carries, whenever [locatePartition] returns without error the identifier
    is that of one of the partition definitions and [GetPartition] of it is
    a constructed handle: [AddRecord] and [RemoveRecord] delegate to that
    handle, and [UpdateRecord], once both locates succeed, returns (it does
    not reach the nil handle). *)
Theorem locatePartition_registered (tbl : Table) (tblInfo : TableInfo) w0 w1 t
    ctx r (pid : Z) :
  newPartitionedTable tbl tblInfo w0 = Return ((Some t, None), w1) ->
  meta (Table_tableCommon (embedded_Table t)) = tblInfo ->
  locatePartition t ctx
    (GetPartitionInfo (meta (Table_tableCommon (embedded_Table t)))) r
  = Return (pid, None) ->
  (exists pi d, GetPartitionInfo tblInfo = Some pi /\
                d ∈ Definitions pi /\ ID d = pid) /\
  exists p : partition,
    GetPartition t pid = Return (Some p) /\
    (forall (skipHandleCheck : bool) w,
       AddRecord t ctx r skipHandleCheck w
       = partition_AddRecord (Some p) ctx r skipHandleCheck w) /\
    (forall (h : Z) w,
       RemoveRecord t ctx h r w = partition_RemoveRecord (Some p) ctx h r w) /\
    (forall (h : Z) newData touched w (to : Z),
       locatePartition t ctx
         (GetPartitionInfo (meta (Table_tableCommon (embedded_Table t)))) newData
       = Return (to, None) ->
       exists (res : option Error) w',
         UpdateRecord t ctx h r newData touched w = Return (res, w')).
Proof.
  intros Hnew Hmeta Hloc.
  destruct (located_is_registered _ _ _ _ _ _ _ _ Hnew Hmeta Hloc)
    as (pi & d & p & Hpi & Hd & Hid & Hp).
  split; [eauto|]. exists p.
  split; [unfold GetPartition; rewrite Hp; reflexivity|].
  split; [|split].
  - intros skip w. unfold AddRecord, bind, lift, GetPartition.
    rewrite Hloc, Hp. reflexivity.
  - intros h w. unfold RemoveRecord, bind, lift, GetPartition.
    rewrite Hloc, Hp. reflexivity.
  - intros h newData touched w to Hto.
    destruct (located_is_registered _ _ _ _ _ _ _ _ Hnew Hmeta Hto)
      as (_ & _ & q & _ & _ & _ & Hq).
    unfold UpdateRecord, bind, lift, GetPartition, partition_AddRecord,
      partition_RemoveRecord, partition_UpdateRecord, ret, log_write.
    rewrite Hloc, Hto. destruct (negb (pid =? to)); rewrite Hq.
    + destruct (tableCommon_AddRecord _ _ _ _ _) as [[hdl [e|]] st1];
        [eauto|].
      rewrite Hp. cbn.
      destruct (tableCommon_RemoveRecord _ _ _ _ _) as [[e|] st2]; eauto.
    + destruct (tableCommon_UpdateRecord _ _ _ _ _ _ _) as [res st]. eauto.
Qed.

End FacadeFacts.

(** ** The properties on the tables of the scenarios *)

(** C4.  When the search of [locatePartition] ends at an index outside
    [0 .. partitionCount), the result is the error
    [ErrTrgInvalidCreationCtx] and the zero identifier; on the table whose
    only boundary is 10, locating the row with key 50 gives that error. *)
Theorem locatePartition_no_matching_partition :
  (forall `{EP : ExprPkg} (t : partitionedTable) (ctx : SessionCtx)
          (pi : option PartitionInfo) (r : list Datum) (pe : PartitionExpr)
          (idx : nat) (v : SearchVars),
     partitionExpr t = Some pe ->
     locateSearch (UpperBounds pe) ctx r = Return (idx, v) ->
     (idx < 0 \/ length (UpperBounds pe) <= idx)%nat ->
     locatePartition t ctx pi r = Return (0, Some ErrTrgInvalidCreationCtx)) /\
  (Demo.load Demo.info10 = Some (Demo.built Demo.info10) /\
   @partitionExpr Demo.base Demo.exprPkg (Demo.built Demo.info10)
   = Some Demo.partitionExpr10 /\
   @locatePartition Demo.base Demo.exprPkg (Demo.built Demo.info10) tt
     (GetPartitionInfo Demo.info10) [50]
   = Return (0, Some Demo.ErrNoPartition)).
Proof.
  split.
  - intros H EP t ctx pi r pe idx v. apply locatePartition_out_of_range.
  - repeat split.
Qed.

Section DemoFacts.
#[local] Existing Instances Demo.base Demo.exprPkg Demo.tablePkg.
Import Demo.

Lemma locatePartition_no_matching_partition_witness :
  locatePartition (built info10) tt (GetPartitionInfo info10) [50]
  = Return (0, Some ErrNoPartition).
Proof.
  apply (proj1 locatePartition_no_matching_partition base exprPkg (built info10)
           tt (GetPartitionInfo info10) [50] partitionExpr10
           1%nat {| err := None; probes := [0%nat] |}).
  - reflexivity.
  - reflexivity.
  - right. cbn. lia.
Defined.

Lemma built_info3 :
  newPartitionedTable (plainTable info3) info3 emptyWorld
  = Return ((Some (built info3), None), emptyWorld).
Proof. reflexivity. Qed.

Lemma monotonic_info3 (key : Z) :
  monotonic (UpperBounds partitionExpr3) tt [key].
Proof.
  intros a b [Hab Hb] Ha. cbn in Hb.
  destruct a as [|[|[|a]]]; destruct b as [|[|[|b]]]; try lia;
    try reflexivity; revert Ha; unfold upperBoundSignal; cbn;
    destruct (Z.ltb_spec key 100); destruct (Z.ltb_spec key 200);
    intros; try discriminate; try reflexivity; lia.
Defined.

Lemma locatePartition_smallest_true_witness :
  locatePartition (built info3) tt (GetPartitionInfo info3) [150]
  = Return (2, None).
Proof.
  refine (proj1 (locatePartition_smallest_true (built info3) tt
                   {| Expr := "a"; Definitions := _ |} [150] partitionExpr3 1%nat
                   {| ID := 2; LessThan := ["200"] |} _ _ _ _ _)).
  - reflexivity.
  - apply monotonic_info3.
  - reflexivity.
  - intros j Hj. assert (j = 0%nat) as -> by lia. reflexivity.
  - reflexivity.
Defined.

Lemma UpdateRecord_cross_partition_witness :
  UpdateRecord (built info3) tt 90 [90] [250] [true]
    (worldOf [(1, 90, [90]); (3, 250, [250; 7])])
  = Return (Some ErrKeyExists,
            {| store := [(1, 90, [90]); (3, 250, [250; 7])];
               calls := [CallAddRecord (partitionOf info3 3) [250] false];
               logged := [] |}).
Proof.
  refine (proj2 (proj1 (UpdateRecord_cross_partition (built info3) tt 90 [90]
                          [250] [true]
                          (worldOf [(1, 90, [90]); (3, 250, [250; 7])])
                          1 3 (partitionOf info3 3) _ _ _ _)
                   0 ErrKeyExists [(1, 90, [90]); (3, 250, [250; 7])] _) _).
  - reflexivity.
  - reflexivity.
  - discriminate.
  - reflexivity.
  - reflexivity.
  - reflexivity.
Defined.

Lemma UpdateRecord_same_partition_witness :
  UpdateRecord (built info3) tt 110 [110] [150] [true]
    (worldOf [(2, 110, [110])])
  = Return (None,
            {| store := [(2, 110, [150])];
               calls := [CallUpdateRecord (partitionOf info3 2) 110 [110] [150]
                           [true]];
               logged := [] |}).
Proof.
  refine (proj2 (UpdateRecord_same_partition (built info3) tt 110 [110] [150]
                   [true] (worldOf [(2, 110, [110])]) 2 (partitionOf info3 2)
                   _ _ _)).
  - reflexivity.
  - reflexivity.
  - reflexivity.
Defined.

Lemma generatePartitionExpr_compiles_witness :
  exists pe : PartitionExpr,
    generatePartitionExpr info3 emptyWorld = Return ((Some pe, None), emptyWorld) /\
    length (UpperBounds pe) = 3%nat /\ length (Ranges pe) = 3%nat.
Proof.
  destruct (generatePartitionExpr_compiles info3
              {| Expr := "a";
                 Definitions := [ {| ID := 1; LessThan := ["100"] |};
                                  {| ID := 2; LessThan := ["200"] |};
                                  {| ID := 3; LessThan := ["MAXVALUE"] |} ] |}
              emptyWorld eq_refl) as (pe & Hrun & Hu & Hr & _).
  - intros k Hk. cbn in Hk.
    destruct k as [|[|[|k]]]; [| | |lia]; eexists _, _; split; reflexivity.
  - exists pe. auto.
Defined.

Lemma newPartitionedTable_all_or_nothing_witness :
  exists (e : Error) w',
    newPartitionedTable (plainTable infoBadText) infoBadText emptyWorld
    = Return ((None, Some e), w').
Proof.
  apply (proj2 (newPartitionedTable_all_or_nothing (plainTable infoBadText)
                  infoBadText emptyWorld)
           {| Expr := "a";
              Definitions := [ {| ID := 1; LessThan := ["10"] |};
                               {| ID := 2; LessThan := ["zz"] |} ] |}).
  - split; [reflexivity|]. intros i Hi. cbn in Hi.
    destruct i as [|[|i]]; [| |lia]; eexists; reflexivity.
  - left. exists 1%nat, (ErrUnknownColumn "zz"). split; [cbn; lia|].
    left. reflexivity.
Defined.

(** The constructor also refuses the table whose second sub-table does not
    initialise. *)
Lemma newPartitionedTable_bad_subtable :
  newPartitionedTable (plainTable infoBadID) infoBadID emptyWorld
  = Return ((None, Some ErrInvalidTableID), emptyWorld).
Proof. reflexivity. Qed.

(** C9, as stated, fails: 99 is no key of the registry of the table over
    [info3], and [GetPartition] returns (the nil handle); it does not
    panic. *)
Lemma GetPartition_foreign_identifier_returns :
  partitions (built info3) !! 99 = None /\
  GetPartition (built info3) 99 = Return None /\
  isPanic (GetPartition (built info3) 99) = false /\
  ~ (forall (t : partitionedTable) (pid : Z),
       partitions t !! pid = None -> isPanic (GetPartition t pid) = true).
Proof.
  assert (Hnone : partitions (built info3) !! 99 = None)
    by (reflexivity).
  split; [exact Hnone|]. split; [reflexivity|].
  split; [reflexivity|]. intros Hall.
  specialize (Hall (built info3) 99 Hnone). discriminate.
Qed.

Lemma GetPartition_lookup_witness :
  GetPartition (built info3) 2 = Return (Some (partitionOf info3 2)) /\
  GetPartition (built info3) 99 = Return None.
Proof.
  split.
  - apply (proj1 (proj2 (GetPartition_lookup (built info3) 2))).
    reflexivity.
  - apply (proj2 (proj2 (GetPartition_lookup (built info3) 99))).
    reflexivity.
Defined.

Lemma locatePartition_registered_witness :
  exists p : partition,
    GetPartition (built info3) 1 = Return (Some p) /\
    forall (skipHandleCheck : bool) (w : World),
      AddRecord (built info3) tt [50] skipHandleCheck w
      = partition_AddRecord (Some p) tt [50] skipHandleCheck w.
Proof.
  destruct (locatePartition_registered (plainTable info3) info3 emptyWorld
              emptyWorld (built info3) tt [50] 1) as (_ & p & Hget & Hadd & _).
  - reflexivity.
  - reflexivity.
  - reflexivity.
  - exists p. split; [exact Hget | exact Hadd].
Defined.

(** C3 on the code.  On the table over [infoDiv] the second upper bound
    fails to evaluate for every row; locating the row with key 50 probes
    index 1 (the error), goes on to probe index 0, which evaluates to false
    and overwrites the error, and returns the identifier of partition 2 with
    no error. *)
Theorem locatePartition_loses_evaluation_error :
  load infoDiv = Some (built infoDiv) /\
  (exists (pe : PartitionExpr) (e : Expression),
     partitionExpr (built infoDiv) = Some pe /\
     UpperBounds pe !! 1%nat = Some e /\
     EvalInt e tt [50] = (0, true, Some ErrDivisionByZero) /\
     locateSearch (UpperBounds pe) tt [50]
     = Return (1%nat, {| err := None; probes := [1%nat; 0%nat] |})) /\
  locatePartition (built infoDiv) tt (GetPartitionInfo infoDiv) [50]
  = Return (2, None).
Proof.
  destruct (locatePartition_error_overwritten (built infoDiv) tt
              {| Expr := "a";
                 Definitions := [ {| ID := 1; LessThan := ["10"] |};
                                  {| ID := 2; LessThan := ["100/0"] |};
                                  {| ID := 3; LessThan := ["MAXVALUE"] |} ] |}
              [50]
              partitionExprDiv
              (ELt (ECol 0) (EConst 10))
              (ELt (ECol 0) (EDiv (EConst 100) (EConst 0))) ETrue
              {| ID := 2; LessThan := ["100/0"] |} 0 0 false true
              ErrDivisionByZero) as [Hsearch Hlocate];
    [reflexivity | reflexivity | reflexivity | reflexivity | lia | reflexivity |].
  split; [reflexivity|]. split; [|exact Hlocate].
  eexists _, _. split; [reflexivity|]. split; [reflexivity|].
  split; [reflexivity | exact Hsearch].
Qed.

Lemma sort_Search_fuel_adequate_witness :
  sort_Search_loop 10 (locateClosure (UpperBounds partitionExpr3) tt [150]) 0 3
    {| err := None; probes := [] |}
  = locateSearch (UpperBounds partitionExpr3) tt [150].
Proof.
  apply (sort_Search_fuel_adequate
           (locateClosure (UpperBounds partitionExpr3) tt [150]) 3 10). lia.
Defined.

Lemma locateSearch_covered_witness :
  exists (idx : nat) (v : SearchVars),
    locateSearch (UpperBounds partitionExpr3) tt [1000000] = Return (idx, v) /\
    (idx < 3)%nat.
Proof.
  apply (locateSearch_covered (UpperBounds partitionExpr3) tt [1000000]).
  reflexivity.
Defined.


(** The boundaries 100, 200, MAXVALUE compile to the upper bounds
    [a < 100], [a < 200], [true] and the ranges [a < 100],
    [a < 200 and a >= 100], [true and a >= 200]. *)
Example generatePartitionExpr_scenario :
  generatePartitionExpr info3 emptyWorld
  = Return ((Some partitionExpr3, None), emptyWorld).
Proof. reflexivity. Qed.

(** The scenarios of section 8 of the specification on boundaries 100, 200,
    MAXVALUE: keys 50, 150 and 1000000 locate partitions 1, 2 and 3. *)
Example locatePartition_scenario :
  locatePartition (built info3) tt (GetPartitionInfo info3) [50]
  = Return (1, None) /\
  locatePartition (built info3) tt (GetPartitionInfo info3) [150]
  = Return (2, None) /\
  locatePartition (built info3) tt (GetPartitionInfo info3) [1000000]
  = Return (3, None).
Proof. repeat split. Qed.

(** Moving the row with key 90 to key 250 adds it to partition 3, then
    removes it from partition 1; the row is then in partition 3 only. *)
Example UpdateRecord_scenario :
  UpdateRecord (built info3) tt 90 [90] [250] [true] (worldOf [(1, 90, [90])])
  = Return (None,
            {| store := [(3, 250, [250])];
               calls := [CallAddRecord (partitionOf info3 3) [250] false;
                         CallRemoveRecord (partitionOf info3 1) 90 [90]];
               logged := [] |}).
Proof. reflexivity. Qed.

End DemoFacts.

(** ** Further properties of the locator *)

Lemma midpoint_halves (i j : nat) :
  (2 * ((i + j) / 2) <= i + j < 2 * ((i + j) / 2) + 2)%nat.
Proof.
  pose proof (Nat.div_mod_eq (i + j) 2) as Hdm.
  pose proof (Nat.mod_upper_bound (i + j) 2 ltac:(lia)) as Hmod. lia.
Qed.

Section LocateMore.
Context `{EP : ExprPkg}.
Implicit Types (exprs : list Expression) (ctx : SessionCtx) (r : list Datum).
Implicit Types (v : SearchVars) (t : partitionedTable).

(** The probes of the loop on [i .. j): at most [k] of them when the
    interval is shorter than [2^k], all inside the interval, none twice. *)
Lemma locateSearch_loop_probes exprs ctx r :
  forall (fuel k i j : nat) v,
    (i <= j <= length exprs)%nat -> (j - i <= fuel)%nat -> (j - i < 2 ^ k)%nat ->
    exists idx v' (new : list nat),
      sort_Search_loop fuel (locateClosure exprs ctx r) i j v = Return (idx, v') /\
      probes v' = probes v ++ new /\ (length new <= k)%nat /\
      Forall (fun h => (i <= h < j)%nat) new /\ NoDup new.
Proof.
  induction fuel as [|fuel IH]; intros k i j v Hij Hfuel Hk.
  - cbn [sort_Search_loop]. exists i, v, []. rewrite app_nil_r.
    repeat split; [cbn; lia | constructor | constructor].
  - cbn [sort_Search_loop]. destruct (Nat.ltb_spec i j) as [Hlt|Hge].
    2:{ exists i, v, []. rewrite app_nil_r.
        repeat split; [cbn; lia | constructor | constructor]. }
    pose proof (midpoint_bounds i j Hlt) as Hm.
    pose proof (midpoint_halves i j) as Hh.
    destruct k as [|k]; [cbn in Hk; lia|].
    rewrite Nat.pow_succ_r' in Hk.
    destruct (locateClosure_returns exprs ctx r ((i + j) / 2)%nat v ltac:(lia))
      as (b & v1 & -> & _ & Hp1).
    revert Hm Hh Hp1 IH. generalize ((i + j) / 2)%nat. intros h Hm Hh Hp1 IH.
    assert (Hleft : (h - i < 2 ^ k)%nat)
      by (revert Hk; generalize (2 ^ k)%nat; intros; lia).
    assert (Hright : (j - (h + 1) < 2 ^ k)%nat)
      by (revert Hk; generalize (2 ^ k)%nat; intros; lia).
    destruct b; cbn [negb].
    + destruct (IH k i h v1 ltac:(lia) ltac:(lia) Hleft)
        as (idx & v' & new & -> & Hp & Hlen & Hin & Hnd).
      exists idx, v', (h :: new).
      split; [reflexivity|]. split; [rewrite Hp, Hp1, <- app_assoc; reflexivity|].
      split; [cbn; lia|]. split.
      * constructor; [lia|]. eapply Forall_impl; [exact Hin|]. cbn. intros; lia.
      * constructor; [|exact Hnd]. intros Hmem.
        rewrite Forall_forall in Hin. specialize (Hin _ Hmem). cbn in Hin. lia.
    + destruct (IH k (h + 1)%nat j v1 ltac:(lia) ltac:(lia) Hright)
        as (idx & v' & new & -> & Hp & Hlen & Hin & Hnd).
      exists idx, v', (h :: new).
      split; [reflexivity|]. split; [rewrite Hp, Hp1, <- app_assoc; reflexivity|].
      split; [cbn; lia|]. split.
      * constructor; [lia|]. eapply Forall_impl; [exact Hin|]. cbn. intros; lia.
      * constructor; [|exact Hnd]. intros Hmem.
        rewrite Forall_forall in Hin. specialize (Hin _ Hmem). cbn in Hin. lia.
Qed.

(** The search of [locatePartition] evaluates at most [log2 n + 1] of the
    [n] upper bounds, each one inside the list and none of them twice. *)
Theorem locateSearch_probes_logarithmic exprs ctx r :
  exists (idx : nat) v,
    locateSearch exprs ctx r = Return (idx, v) /\
    (length (probes v) <= Nat.log2 (length exprs) + 1)%nat /\
    Forall (fun h => (h < length exprs)%nat) (probes v) /\
    NoDup (probes v).
Proof.
  assert (Hk : (length exprs - 0 < 2 ^ (Nat.log2 (length exprs) + 1))%nat).
  { rewrite Nat.add_1_r. destruct (length exprs) as [|n] eqn:Hn; [cbn; lia|].
    pose proof (Nat.log2_spec (S n) ltac:(lia)). lia. }
  destruct (locateSearch_loop_probes exprs ctx r (length exprs)
              (Nat.log2 (length exprs) + 1) 0 (length exprs)
              {| err := None; probes := [] |} ltac:(lia) ltac:(lia) Hk)
    as (idx & v & new & Heq & Hp & Hlen & Hin & Hnd).
  cbn [probes app] in Hp. subst new.
  exists idx, v. split; [exact Heq|]. split; [exact Hlen|]. split; [|exact Hnd].
  eapply Forall_impl; [exact Hin|]. cbn. intros; lia.
Qed.

End LocateMore.

Section LocateEdges.
Context `{EP : ExprPkg}.
Implicit Types (exprs : list Expression) (ctx : SessionCtx) (r : list Datum).
Implicit Types (v : SearchVars) (t : partitionedTable).

(** The closure answers [true] only where the bound is not false: it
    evaluated to true or it failed. *)
Lemma locateClosure_true exprs ctx r (h : nat) v v' :
  locateClosure exprs ctx r h v = Return (true, v') ->
  upperBoundSignal exprs ctx r h <> Some false.
Proof.
  unfold upperBoundSignal, locateClosure, index.
  destruct (exprs !! h) as [e|]; [|discriminate]. cbn [outcome_bind].
  destruct (EvalInt e ctx r) as [[ret isNull] [e'|]]; [discriminate|].
  intros [= -> _]. discriminate.
Qed.

(** After a probe, [err] holds the error of that probe. *)
Lemma locateClosure_err exprs ctx r (h : nat) v (b : bool) v' :
  locateClosure exprs ctx r h v = Return (b, v') ->
  err v' = evalError exprs ctx r h.
Proof.
  unfold evalError, locateClosure, index.
  destruct (exprs !! h) as [e|]; [|discriminate]. cbn [outcome_bind].
  destruct (EvalInt e ctx r) as [[ret isNull] [e'|]]; intros [= _ <-]; reflexivity.
Qed.

(** Where the loop ends below its upper bound, the bound at the result did
    not evaluate to false. *)
Lemma locateSearch_loop_first_true exprs ctx r :
  forall (fuel i j : nat) v,
    (i <= j <= length exprs)%nat -> (j - i <= fuel)%nat ->
    exists idx v',
      sort_Search_loop fuel (locateClosure exprs ctx r) i j v = Return (idx, v') /\
      (idx = j \/ upperBoundSignal exprs ctx r idx <> Some false).
Proof.
  induction fuel as [|fuel IH]; intros i j v Hij Hfuel.
  - cbn [sort_Search_loop]. exists i, v. split; [reflexivity|]. left. lia.
  - cbn [sort_Search_loop]. destruct (Nat.ltb_spec i j) as [Hlt|Hge].
    2:{ exists i, v. split; [reflexivity|]. left. lia. }
    pose proof (midpoint_bounds i j Hlt) as Hm.
    destruct (locateClosure_returns exprs ctx r ((i + j) / 2)%nat v ltac:(lia))
      as (b & v' & Hclosure & _ & _).
    rewrite Hclosure. destruct b; cbn [negb].
    + destruct (IH i ((i + j) / 2)%nat v') as (idx & v'' & -> & Hidx);
        [lia | lia |].
      exists idx, v''. split; [reflexivity|]. right.
      destruct Hidx as [->|Hidx]; [|exact Hidx].
      exact (locateClosure_true _ _ _ _ _ _ Hclosure).
    + apply IH; lia.
Qed.

(** Whatever the table, monotonic or not, the index the search returns is
    a boundary of the answers it saw: it is 0 or the bound just below it
    evaluated to false, and it is the length or the bound at it evaluated to
    true or failed. *)
Theorem locateSearch_local_boundary exprs ctx r :
  exists (idx : nat) v,
    locateSearch exprs ctx r = Return (idx, v) /\
    (idx <= length exprs)%nat /\
    (idx = 0%nat \/ upperBoundSignal exprs ctx r (idx - 1) = Some false) /\
    (idx = length exprs \/ upperBoundSignal exprs ctx r idx <> Some false).
Proof.
  destruct (locateSearch_returns exprs ctx r) as (idx & v & Heq & Hle & _).
  exists idx, v. split; [exact Heq|]. split; [exact Hle|].
  unfold locateSearch, sort_Search in Heq. split.
  - destruct (locateSearch_loop_last_probe exprs ctx r (length exprs) 0
                (length exprs) {| err := None; probes := [] |})
      as (idx' & v' & Heq' & Hidx); [lia | lia |].
    rewrite Heq in Heq'. injection Heq' as <- <-. exact Hidx.
  - destruct (locateSearch_loop_first_true exprs ctx r (length exprs) 0
                (length exprs) {| err := None; probes := [] |})
      as (idx' & v' & Heq' & Hidx); [lia | lia |].
    rewrite Heq in Heq'. injection Heq' as <- <-. exact Hidx.
Qed.

(** When no bound evaluates to false the loop on a non-empty interval ends
    at its lower bound, and [err] is the error of the probe there. *)
Lemma locateSearch_loop_never_false exprs ctx r :
  (forall h : nat, (h < length exprs)%nat ->
     upperBoundSignal exprs ctx r h <> Some false) ->
  forall (fuel i j : nat) v,
    (i < j <= length exprs)%nat -> (j - i <= fuel)%nat ->
    exists v',
      sort_Search_loop fuel (locateClosure exprs ctx r) i j v = Return (i, v') /\
      err v' = evalError exprs ctx r i.
Proof.
  intros Hnf. induction fuel as [|fuel IH]; intros i j v Hij Hfuel; [lia|].
  cbn [sort_Search_loop]. destruct (Nat.ltb_spec i j) as [Hlt|Hge]; [|lia].
  pose proof (midpoint_bounds i j Hlt) as Hm.
  destruct (locateClosure_returns exprs ctx r ((i + j) / 2)%nat v ltac:(lia))
    as (b & v1 & Hclosure & _ & _).
  rewrite Hclosure. destruct b; cbn [negb].
  - destruct (Nat.eq_dec ((i + j) / 2)%nat i) as [Heq|Hne].
    + rewrite Heq in *. exists v1. split.
      * destruct fuel; cbn [sort_Search_loop]; [reflexivity|].
        destruct (Nat.ltb_spec i i); [lia | reflexivity].
      * exact (locateClosure_err _ _ _ _ _ _ _ Hclosure).
    + apply IH; lia.
  - exfalso. apply (Hnf ((i + j) / 2)%nat ltac:(lia)).
    exact (locateClosure_false _ _ _ _ _ _ Hclosure).
Qed.

(** When evaluating every upper bound against the row fails (as when the
    partition key expression itself cannot be evaluated), [locatePartition]
    returns the error of the first upper bound and the zero identifier. *)
Theorem locatePartition_every_bound_fails t ctx (pi : option PartitionInfo) r
    (pe : PartitionExpr) (err0 : Error) :
  partitionExpr t = Some pe ->
  (forall h : nat, (h < length (UpperBounds pe))%nat ->
     is_Some (evalError (UpperBounds pe) ctx r h)) ->
  evalError (UpperBounds pe) ctx r 0 = Some err0 ->
  locatePartition t ctx pi r = Return (0, Some err0).
Proof.
  intros Hpe Hall H0.
  assert (Hn : (0 < length (UpperBounds pe))%nat).
  { unfold evalError in H0.
    destruct (UpperBounds pe !! 0%nat) eqn:Hl; [|discriminate].
    apply lookup_lt_Some in Hl. exact Hl. }
  destruct (locateSearch_loop_never_false (UpperBounds pe) ctx r) with
    (fuel := length (UpperBounds pe)) (i := 0%nat) (j := length (UpperBounds pe))
    (v := {| err := None; probes := [] |}) as (v' & Hsearch & Herr).
  - intros h Hh Hfalse. destruct (Hall h Hh) as [e He].
    unfold evalError in He. unfold upperBoundSignal in Hfalse.
    destruct (UpperBounds pe !! h) as [x|]; [|discriminate].
    destruct (EvalInt x ctx r) as [[ret isNull] [e'|]]; discriminate.
  - lia.
  - lia.
  - unfold locatePartition. rewrite Hpe. cbn [outcome_bind].
    unfold locateSearch, sort_Search. rewrite Hsearch. cbn [outcome_bind].
    rewrite Herr, H0. reflexivity.
Qed.

(** When every upper bound evaluates to false for the row (the row lies at
    or above every boundary; also when there is no partition at all),
    [locatePartition] returns the no-matching-partition error. *)
Theorem locatePartition_every_bound_false t ctx (pi : option PartitionInfo) r
    (pe : PartitionExpr) :
  partitionExpr t = Some pe ->
  (forall h : nat, (h < length (UpperBounds pe))%nat ->
     upperBoundSignal (UpperBounds pe) ctx r h = Some false) ->
  locatePartition t ctx pi r = Return (0, Some ErrTrgInvalidCreationCtx).
Proof.
  intros Hpe Hall.
  destruct (sort_Search_loop_threshold (locateClosure (UpperBounds pe) ctx r)
              (fun v => err v = None) (length (UpperBounds pe))
              (length (UpperBounds pe)))
    with (fuel := length (UpperBounds pe)) (i := 0%nat)
         (j := length (UpperBounds pe)) (v := {| err := None; probes := [] |})
    as (v' & Hsearch & Herr).
  - intros h v Hh _. eexists. split.
    + apply locateClosure_signal. auto.
    + reflexivity.
  - intros h v Hh _. lia.
  - lia.
  - lia.
  - lia.
  - reflexivity.
  - apply (locatePartition_out_of_range t ctx pi r pe (length (UpperBounds pe)) v');
      [exact Hpe | exact Hsearch | right; lia].
Qed.

(** [locatePartition] returns whenever the expression is there and the
    partition info has a definition for every upper bound. *)
Lemma locatePartition_total t ctx (pi : PartitionInfo) r (pe : PartitionExpr) :
  partitionExpr t = Some pe ->
  (length (UpperBounds pe) <= length (Definitions pi))%nat ->
  exists (pid : Z) (e : option Error),
    locatePartition t ctx (Some pi) r = Return (pid, e).
Proof.
  intros Hpe Hlen. unfold locatePartition. rewrite Hpe. cbn [outcome_bind].
  destruct (locateSearch_returns (UpperBounds pe) ctx r) as (idx & v & -> & Hle & _).
  cbn [outcome_bind]. destruct (err v); [eauto|].
  destruct ((idx <? 0)%nat || (length (UpperBounds pe) <=? idx)%nat) eqn:Hout;
    [eauto|].
  apply orb_false_iff in Hout as [_ Hin]. apply Nat.leb_gt in Hin.
  destruct (lookup_lt_is_Some_2 (Definitions pi) idx ltac:(lia)) as [d Hd].
  unfold index. rewrite Hd. cbn [outcome_bind]. eauto.
Qed.

(** Even on a misconfigured (non-monotonic) table the locator does not
    crash: with a definition for every upper bound it returns, and it
    returns either an error with the zero identifier or the identifier of
    one of the definitions. *)
Theorem locatePartition_never_crashes t ctx (pi : PartitionInfo) r
    (pe : PartitionExpr) :
  partitionExpr t = Some pe ->
  (length (UpperBounds pe) <= length (Definitions pi))%nat ->
  (exists e : Error, locatePartition t ctx (Some pi) r = Return (0, Some e)) \/
  (exists d : PartitionDefinition, d ∈ Definitions pi /\
     locatePartition t ctx (Some pi) r = Return (ID d, None)).
Proof.
  intros Hpe Hlen.
  destruct (locatePartition_total t ctx pi r pe Hpe Hlen) as (pid & e & Heq).
  destruct e as [e|].
  - left. exists e. rewrite Heq. f_equal. f_equal.
    unfold locatePartition in Heq. rewrite Hpe in Heq. cbn [outcome_bind] in Heq.
    destruct (locateSearch (UpperBounds pe) ctx r) as [[idx v]|]; [|discriminate].
    cbn [outcome_bind] in Heq. destruct (err v); [congruence|].
    destruct ((idx <? 0)%nat || (length (UpperBounds pe) <=? idx)%nat);
      [congruence|].
    unfold index in Heq. destruct (Definitions pi !! idx); discriminate.
  - right. pose proof Heq as Hs.
    apply locatePartition_success in Hs
      as (pe' & pi' & idx & d & _ & [= <-] & _ & Hd & <-).
    exists d. split; [|exact Heq]. apply list_elem_of_lookup. eauto.
Qed.

End LocateEdges.

(** ** Further properties of the facade *)

Section FacadeMore.
Context `{EP : ExprPkg} `{TP : !TablePkg}.
Implicit Types (t : partitionedTable) (ctx : SessionCtx) (w : World).
Implicit Types (r currData newData : list Datum) (touched : list bool).

(** On a table [newPartitionedTable] built from the metadata it carries,
    [AddRecord], [RemoveRecord] and [UpdateRecord] never panic, whatever
    the rows: no nil partition info, no index out of range, no nil
    partition handle. *)
Theorem facade_never_panics (tbl : Table) (tblInfo : TableInfo) w0 w1 t :
  newPartitionedTable tbl tblInfo w0 = Return ((Some t, None), w1) ->
  meta (Table_tableCommon (embedded_Table t)) = tblInfo ->
  forall ctx (h : Z) r newData touched (skipHandleCheck : bool) w,
    isPanic (AddRecord t ctx r skipHandleCheck w) = false /\
    isPanic (RemoveRecord t ctx h r w) = false /\
    isPanic (UpdateRecord t ctx h r newData touched w) = false.
Proof.
  intros Hnew Hmeta ctx h r newData touched skip w.
  destruct (newPartitionedTable_registry _ _ _ _ _ Hnew)
    as (pi & pe & Hpi & Hpe & Hlen & _).
  assert (Hloc : forall row, exists (pid : Z) (e : option Error),
             locatePartition t ctx
               (GetPartitionInfo (meta (Table_tableCommon (embedded_Table t)))) row
             = Return (pid, e)).
  { intros row. rewrite Hmeta, Hpi.
    apply (locatePartition_total t ctx pi row pe Hpe). lia. }
  assert (Hreg : forall row (pid : Z),
             locatePartition t ctx
               (GetPartitionInfo (meta (Table_tableCommon (embedded_Table t)))) row
             = Return (pid, None) -> exists p, partitions t !! pid = Some p).
  { intros row pid Hrow.
    destruct (located_is_registered _ _ _ _ _ _ _ _ Hnew Hmeta Hrow)
      as (_ & _ & p & _ & _ & _ & Hp). eauto. }
  destruct (Hloc r) as (from & e1 & Hfrom).
  destruct (Hloc newData) as (to & e2 & Hto).
  unfold AddRecord, RemoveRecord, UpdateRecord, bind, lift, GetPartition,
    partition_AddRecord, partition_RemoveRecord, partition_UpdateRecord, ret,
    log_write.
  rewrite Hfrom. destruct e1 as [e1|]; [repeat split|].
  destruct (Hreg r from Hfrom) as [src Hsrc]. rewrite Hsrc.
  split; [destruct (tableCommon_AddRecord _ _ _ _ _); reflexivity|].
  split; [destruct (tableCommon_RemoveRecord _ _ _ _ _); reflexivity|].
  rewrite Hto. destruct e2 as [e2|]; [reflexivity|].
  destruct (Hreg newData to Hto) as [dst Hdst]. rewrite Hdst.
  destruct (negb (from =? to)).
  - destruct (tableCommon_AddRecord _ _ _ _ _) as [[hdl [e|]] st1]; [reflexivity|].
    cbn. destruct (tableCommon_RemoveRecord _ _ _ _ _) as [[e|] st2]; reflexivity.
  - destruct (tableCommon_UpdateRecord _ _ _ _ _ _ _). reflexivity.
Qed.

(** A cross-partition update whose add succeeds and whose remove fails
    returns the error of the remove and undoes nothing: the store is what
    the add and then the failed remove left, both operations are on record,
    and one error entry is written to the log.  When the remove succeeds
    nothing is logged. *)
Theorem UpdateRecord_remove_outcome t ctx (h : Z) currData newData touched w
    (from to : Z) (src dst : partition) (hdl : Z) (st1 st2 : Store) :
  locatePartition t ctx
    (GetPartitionInfo (meta (Table_tableCommon (embedded_Table t)))) currData
  = Return (from, None) ->
  locatePartition t ctx
    (GetPartitionInfo (meta (Table_tableCommon (embedded_Table t)))) newData
  = Return (to, None) ->
  from <> to ->
  partitions t !! from = Some src ->
  partitions t !! to = Some dst ->
  tableCommon_AddRecord (partition_tableCommon dst) ctx newData false (store w)
  = ((hdl, None), st1) ->
  (forall e : Error,
     tableCommon_RemoveRecord (partition_tableCommon src) ctx h currData st1
     = (Some e, st2) ->
     UpdateRecord t ctx h currData newData touched w
     = Return (Some e,
               {| store := st2;
                  calls := calls w ++ [CallAddRecord dst newData false;
                                       CallRemoveRecord src h currData];
                  logged := logged w ++
                    [log_Error
                       ["partition update record error, it may write dirty data to txn:";
                        errors_ErrorStack e]] |})) /\
  (tableCommon_RemoveRecord (partition_tableCommon src) ctx h currData st1
   = (None, st2) ->
   UpdateRecord t ctx h currData newData touched w
   = Return (None,
             {| store := st2;
                calls := calls w ++ [CallAddRecord dst newData false;
                                     CallRemoveRecord src h currData];
                logged := logged w |})).
Proof.
  intros Hfrom Hto Hne Hsrc Hdst Hadd.
  assert (Hneq : negb (from =? to) = true).
  { apply negb_true_iff, Z.eqb_neq. exact Hne. }
  split.
  - intros e Hrm.
    unfold UpdateRecord, bind, lift, GetPartition, partition_AddRecord,
      partition_RemoveRecord, ret, log_write.
    rewrite Hfrom, Hto, Hneq, Hdst, Hadd. cbn. rewrite Hsrc. cbn. rewrite Hrm. cbn.
    rewrite <- app_assoc. reflexivity.
  - intros Hrm.
    unfold UpdateRecord, bind, lift, GetPartition, partition_AddRecord,
      partition_RemoveRecord, ret, log_write.
    rewrite Hfrom, Hto, Hneq, Hdst, Hadd. cbn. rewrite Hsrc. cbn. rewrite Hrm. cbn.
    rewrite <- app_assoc. reflexivity.
Qed.

(** Routing frame.  Every physical operation [AddRecord], [RemoveRecord]
    or [UpdateRecord] issues is on a partition registered under the
    identifier located for a row of the call: for [UpdateRecord] the old or
    the new row, for the others the one row.  No other partition is
    touched. *)
Theorem facade_touches_only_located t ctx (h : Z) r newData touched
    (skipHandleCheck : bool) w :
  (forall (res : Z * option Error) w',
     AddRecord t ctx r skipHandleCheck w = Return (res, w') ->
     exists added : list Call, calls w' = calls w ++ added /\
       forall c, c ∈ added -> exists pid : Z,
         locatePartition t ctx
           (GetPartitionInfo (meta (Table_tableCommon (embedded_Table t)))) r
         = Return (pid, None) /\
         partitions t !! pid = Some (callPartition c)) /\
  (forall (res : option Error) w',
     RemoveRecord t ctx h r w = Return (res, w') ->
     exists added : list Call, calls w' = calls w ++ added /\
       forall c, c ∈ added -> exists pid : Z,
         locatePartition t ctx
           (GetPartitionInfo (meta (Table_tableCommon (embedded_Table t)))) r
         = Return (pid, None) /\
         partitions t !! pid = Some (callPartition c)) /\
  (forall (res : option Error) w',
     UpdateRecord t ctx h r newData touched w = Return (res, w') ->
     exists added : list Call, calls w' = calls w ++ added /\
       forall c, c ∈ added -> exists pid : Z,
         (locatePartition t ctx
            (GetPartitionInfo (meta (Table_tableCommon (embedded_Table t)))) r
          = Return (pid, None) \/
          locatePartition t ctx
            (GetPartitionInfo (meta (Table_tableCommon (embedded_Table t)))) newData
          = Return (pid, None)) /\
         partitions t !! pid = Some (callPartition c)).
Proof.
  unfold AddRecord, RemoveRecord, UpdateRecord, bind, lift, GetPartition,
    partition_AddRecord, partition_RemoveRecord, partition_UpdateRecord, ret,
    log_write.
  destruct (locatePartition t ctx _ r) as [[from [e1|]]|] eqn:Hfrom.
  - repeat split; intros res w' [= <- <-]; exists []; rewrite app_nil_r;
      (split; [reflexivity|]); intros c Hc; inversion Hc.
  - destruct (partitions t !! from) as [src|] eqn:Hsrc.
    + split; [|split].
      * intros res w'. destruct (tableCommon_AddRecord _ _ _ _ _) as [res0 st].
        intros [= <- <-]. eexists. split; [reflexivity|].
        intros c Hc. apply list_elem_of_singleton in Hc as ->. eauto.
      * intros res w'. destruct (tableCommon_RemoveRecord _ _ _ _ _) as [res0 st].
        intros [= <- <-]. eexists. split; [reflexivity|].
        intros c Hc. apply list_elem_of_singleton in Hc as ->. eauto.
      * intros res w'.
        destruct (locatePartition t ctx _ newData) as [[to [e2|]]|] eqn:Hto.
        -- intros [= <- <-]. exists []. rewrite app_nil_r.
           split; [reflexivity|]. intros c Hc. inversion Hc.
        -- destruct (partitions t !! to) as [dst|] eqn:Hdst.
           ++ destruct (negb (from =? to)).
              ** destruct (tableCommon_AddRecord _ _ _ _ _) as [[hdl [e|]] st1].
                 --- intros [= <- <-]. eexists. split; [reflexivity|].
                     intros c Hc. apply list_elem_of_singleton in Hc as ->. eauto.
                 --- cbn.
                     destruct (tableCommon_RemoveRecord _ _ _ _ _) as [[e|] st2];
                       intros [= <- <-]; cbn [calls]; rewrite <- app_assoc;
                       (eexists; split; [reflexivity|]);
                       intros c Hc; cbn [app] in Hc;
                       apply elem_of_cons in Hc as [->|Hc];
                       [eauto | apply list_elem_of_singleton in Hc as ->; eauto
                       |eauto | apply list_elem_of_singleton in Hc as ->; eauto].
              ** destruct (tableCommon_UpdateRecord _ _ _ _ _ _ _) as [res0 st].
                 intros [= <- <-]. eexists. split; [reflexivity|].
                 intros c Hc. apply list_elem_of_singleton in Hc as ->. eauto.
           ++ destruct (negb (from =? to)); discriminate.
        -- discriminate.
    + split; [discriminate|]. split; [discriminate|].
      intros res w'.
      destruct (locatePartition t ctx _ newData) as [[to [e2|]]|] eqn:Hto.
      * intros [= <- <-]. exists []. rewrite app_nil_r.
        split; [reflexivity|]. intros c Hc. inversion Hc.
      * destruct (partitions t !! to) as [dst|] eqn:Hdst.
        -- destruct (negb (from =? to)) eqn:Hne.
           ++ destruct (tableCommon_AddRecord _ _ _ _ _) as [[hdl [e|]] st1].
              ** intros [= <- <-]. eexists. split; [reflexivity|].
                 intros c Hc. apply list_elem_of_singleton in Hc as ->. eauto.
              ** cbn. discriminate.
           ++ apply negb_false_iff, Z.eqb_eq in Hne. subst to. congruence.
        -- destruct (negb (from =? to)); discriminate.
      * discriminate.
  - repeat split; discriminate.
Qed.

(** When the physical table initialises a sub-table under the identifier it
    is given, every partition of a built table reports, as its [GetID], the
    identifier it is registered under. *)
Theorem registry_key_is_GetID (tbl : Table) (tblInfo : TableInfo) w0 w1 t
    (pid : Z) (p : partition) :
  (forall (id : Z) (cols : list Column) (al : Allocator) (tc : tableCommon),
     initTableCommonWithIndices tblInfo id cols al = (tc, None) ->
     partitionID tc = id) ->
  newPartitionedTable tbl tblInfo w0 = Return ((Some t, None), w1) ->
  partitions t !! pid = Some p ->
  partition_GetID p = Return pid.
Proof.
  intros Hinit Hnew Hp. apply newPartitionedTable_shape in Hnew.
  destruct Hnew as [[? _]|(_ & t' & pi & pe & [= <-] & _ & _ & _ & Hreg & _)];
    [discriminate|].
  unfold partition_GetID. f_equal. apply (Hinit _ _ _ _ (Hreg pid p Hp)).
Qed.

End FacadeMore.

(** ** Further properties of the boundary compiler and of the constructor *)

Section CompilerMore.
Context `{EP : ExprPkg} `{TP : !TablePkg}.
Implicit Types (tblInfo : TableInfo) (pi : PartitionInfo) (w : World).
Implicit Types (tbl : Table).

(** The loop stops at the first predicate that does not compile, with its
    error, after logging the text that did not compile. *)
Lemma generatePartitionExpr_loop_first_failure tblInfo pi (k : nat)
    (lit text : string) (e : Error) :
  boundaryLiteral pi k = Some lit ->
  (k < length (Definitions pi))%nat ->
  (forall j : nat, (j < k)%nat ->
     exists u rg, spec_UpperBound tblInfo pi j = Some (Ok u) /\
                  spec_Range tblInfo pi j = Some (Ok rg)) ->
  (spec_UpperBound tblInfo pi k = Some (Err e) /\
   text = spec_upperBoundText (Expr pi) lit) \/
  ((exists u, spec_UpperBound tblInfo pi k = Some (Ok u)) /\
   spec_Range tblInfo pi k = Some (Err e) /\
   text = spec_rangeText (Expr pi) (previousLiteral pi k) lit) ->
  forall (todo i : nat) (prune locate : list Expression) w,
    (i + todo = length (Definitions pi))%nat -> (i <= k)%nat ->
    generatePartitionExpr_loop todo i tblInfo pi mock_NewContext prune locate "" w
    = Return ((None, Some e),
              {| store := store w; calls := calls w;
                 logged := logged w ++
                   [log_Error ["wrong table partition expression:";
                               errors_ErrorStack e; text]] |}).
Proof.
  intros Hlit Hk Hbefore Hfail.
  assert (Hlits : forall j : nat, (j <= k)%nat -> is_Some (boundaryLiteral pi j)).
  { intros j Hj. destruct (Nat.eq_dec j k) as [->|Hne]; [eauto|].
    destruct (Hbefore j ltac:(lia)) as (u & _ & Hu & _).
    unfold spec_UpperBound in Hu.
    destruct (boundaryLiteral pi j); [eauto | discriminate]. }
  induction todo as [|todo IH]; intros i prune locate w Hlen Hi; [lia|].
  destruct (Hlits i Hi) as [lit' Hlit'].
  assert (Hprev : forall i', i = S i' -> is_Some (boundaryLiteral pi i')).
  { intros i' ->. apply Hlits. lia. }
  rewrite (generatePartitionExpr_loop_step _ _ _ _ _ _ _ lit' Hlit' Hprev).
  destruct (Nat.eq_dec i k) as [->|Hne].
  - rewrite Hlit in Hlit'. injection Hlit' as <-.
    rewrite (spec_UpperBound_text _ _ _ _ Hlit),
      (spec_Range_text _ _ _ _ Hlit Hprev) in Hfail.
    destruct Hfail as [[[= Hu] ->]|([u [= Hu]] & [= Hr] & ->)].
    + rewrite Hu. reflexivity.
    + rewrite Hu, Hr. reflexivity.
  - destruct (Hbefore i ltac:(lia)) as (u & rg & Hu & Hr).
    rewrite (spec_UpperBound_text _ _ _ _ Hlit') in Hu.
    rewrite (spec_Range_text _ _ _ _ Hlit' Hprev) in Hr.
    injection Hu as ->. injection Hr as ->. apply IH; lia.
Qed.

(** [generatePartitionExpr] reports the first predicate, in definition
    order (upper bound before range), that does not compile: it returns
    that error and no expression, and writes one entry to the log, with the
    error and the text that did not compile. *)
Theorem generatePartitionExpr_first_failure tblInfo pi w (k : nat)
    (lit text : string) (e : Error) :
  GetPartitionInfo tblInfo = Some pi ->
  boundaryLiteral pi k = Some lit ->
  (forall j : nat, (j < k)%nat ->
     exists u rg, spec_UpperBound tblInfo pi j = Some (Ok u) /\
                  spec_Range tblInfo pi j = Some (Ok rg)) ->
  (spec_UpperBound tblInfo pi k = Some (Err e) /\
   text = spec_upperBoundText (Expr pi) lit) \/
  ((exists u, spec_UpperBound tblInfo pi k = Some (Ok u)) /\
   spec_Range tblInfo pi k = Some (Err e) /\
   text = spec_rangeText (Expr pi) (previousLiteral pi k) lit) ->
  generatePartitionExpr tblInfo w
  = Return ((None, Some e),
            {| store := store w; calls := calls w;
               logged := logged w ++
                 [log_Error ["wrong table partition expression:";
                             errors_ErrorStack e; text]] |}).
Proof.
  intros Hpi Hlit Hbefore Hfail. unfold generatePartitionExpr. rewrite Hpi.
  apply (generatePartitionExpr_loop_first_failure tblInfo pi k lit text e Hlit);
    [|exact Hbefore | exact Hfail | reflexivity | lia].
  unfold boundaryLiteral in Hlit.
  destruct (Definitions pi !! k) eqn:Hd; [|discriminate].
  apply lookup_lt_Some in Hd. exact Hd.
Qed.

Lemma generatePartitionExpr_loop_missing_literal tblInfo pi (k : nat)
    (d : PartitionDefinition) :
  Definitions pi !! k = Some d ->
  LessThan d = [] ->
  (forall j : nat, (j < k)%nat ->
     exists u rg, spec_UpperBound tblInfo pi j = Some (Ok u) /\
                  spec_Range tblInfo pi j = Some (Ok rg)) ->
  forall (todo i : nat) (prune locate : list Expression) w,
    (i + todo = length (Definitions pi))%nat -> (i <= k)%nat ->
    generatePartitionExpr_loop todo i tblInfo pi mock_NewContext prune locate "" w
    = Panic index_out_of_range.
Proof.
  intros Hd Hnil Hbefore.
  pose proof (lookup_lt_Some _ _ _ Hd) as Hk.
  assert (Hlits : forall j : nat, (j < k)%nat -> is_Some (boundaryLiteral pi j)).
  { intros j Hj. destruct (Hbefore j Hj) as (u & _ & Hu & _).
    unfold spec_UpperBound in Hu.
    destruct (boundaryLiteral pi j); [eauto | discriminate]. }
  induction todo as [|todo IH]; intros i prune locate w Hlen Hi; [lia|].
  destruct (Nat.eq_dec i k) as [->|Hne].
  - cbn [generatePartitionExpr_loop]. unfold bind at 1, lift at 1, index at 1.
    rewrite Hd. unfold bind at 1, lift at 1, index at 1. rewrite Hnil. reflexivity.
  - destruct (Hlits i ltac:(lia)) as [lit Hlit].
    assert (Hprev : forall i', i = S i' -> is_Some (boundaryLiteral pi i')).
    { intros i' ->. apply Hlits. lia. }
    rewrite (generatePartitionExpr_loop_step _ _ _ _ _ _ _ lit Hlit Hprev).
    destruct (Hbefore i ltac:(lia)) as (u & rg & Hu & Hr).
    rewrite (spec_UpperBound_text _ _ _ _ Hlit) in Hu.
    rewrite (spec_Range_text _ _ _ _ Hlit Hprev) in Hr.
    injection Hu as ->. injection Hr as ->. apply IH; lia.
Qed.

(** Metadata the constructor cannot read makes it panic, not return an
    error: without partition info the panic is a nil dereference; with a
    definition that has no boundary literal, every predicate before it
    compiling, the panic is an index out of range, in the boundary compiler
    and so in [newPartitionedTable]. *)
Theorem newPartitionedTable_panics_on_unreadable tbl tblInfo w :
  (GetPartitionInfo tblInfo = None ->
   generatePartitionExpr tblInfo w = Panic nil_dereference /\
   newPartitionedTable tbl tblInfo w = Panic nil_dereference) /\
  (forall pi (k : nat) (d : PartitionDefinition),
     GetPartitionInfo tblInfo = Some pi ->
     Definitions pi !! k = Some d ->
     LessThan d = [] ->
     (forall j : nat, (j < k)%nat ->
        exists u rg, spec_UpperBound tblInfo pi j = Some (Ok u) /\
                     spec_Range tblInfo pi j = Some (Ok rg)) ->
     generatePartitionExpr tblInfo w = Panic index_out_of_range /\
     newPartitionedTable tbl tblInfo w = Panic index_out_of_range).
Proof.
  split.
  - intros Hpi. unfold newPartitionedTable, bind, generatePartitionExpr.
    rewrite Hpi. split; reflexivity.
  - intros pi k d Hpi Hd Hnil Hbefore.
    assert (Hgen : generatePartitionExpr tblInfo w = Panic index_out_of_range).
    { unfold generatePartitionExpr. rewrite Hpi.
      apply (generatePartitionExpr_loop_missing_literal tblInfo pi k d Hd Hnil
               Hbefore); [reflexivity | lia]. }
    split; [exact Hgen|]. unfold newPartitionedTable. unfold bind at 1.
    rewrite Hgen. reflexivity.
Qed.

(** A table the constructor returns carries exactly what its parts
    produced: [PartitionExpr()] is the expression [generatePartitionExpr]
    returned, the embedded table is the one [initTableIndices] left, and the
    world (store, calls, log) is as it was. *)
Theorem newPartitionedTable_success tbl tblInfo w (t : partitionedTable) w' :
  newPartitionedTable tbl tblInfo w = Return ((Some t, None), w') ->
  w' = w /\
  generatePartitionExpr tblInfo w
  = Return ((partitionedTable_PartitionExpr t, None), w) /\
  initTableIndices (Table_tableCommon tbl)
  = (Table_tableCommon (embedded_Table t), None).
Proof.
  unfold newPartitionedTable. unfold bind at 1.
  destruct (generatePartitionExpr tblInfo w) as [[[pe e1] w1]|] eqn:Hgen;
    [|discriminate].
  pose proof (generatePartitionExpr_shape _ _ _ _ _ Hgen) as Hshape.
  destruct Hshape as [[-> [e1' ->]]|(-> & -> & pi & pe' & Hpi & -> & _)];
    [discriminate|].
  destruct (initTableIndices (Table_tableCommon tbl)) as [tc [e2|]];
    [discriminate|].
  rewrite Hpi.
  destruct (newPartitionedTable_loop _ _ _ _) as [m|e3]; [|discriminate].
  intros [= <- <-]. repeat split.
Qed.

(** The sub-tables are initialised in definition order and the first one
    that fails ends the loop with its error. *)
Lemma newPartitionedTable_loop_first_failure tblInfo tbl (e : Error)
    (d : PartitionDefinition) (post : list PartitionDefinition) :
  (initTableCommonWithIndices tblInfo (ID d) (Columns (Table_tableCommon tbl))
     (alloc (Table_tableCommon tbl))).2 = Some e ->
  forall (pre : list PartitionDefinition) (m : gmap Z partition),
    (forall d', d' ∈ pre ->
       (initTableCommonWithIndices tblInfo (ID d')
          (Columns (Table_tableCommon tbl)) (alloc (Table_tableCommon tbl))).2
       = None) ->
    newPartitionedTable_loop (pre ++ d :: post) tbl tblInfo m = Err e.
Proof.
  intros Hd. induction pre as [|d' pre IH]; intros m Hpre.
  - cbn [app newPartitionedTable_loop].
    destruct (initTableCommonWithIndices tblInfo (ID d) _ _) as [tc [e'|]];
      cbn in Hd; [injection Hd as ->; reflexivity | discriminate].
  - cbn [app newPartitionedTable_loop].
    pose proof (Hpre d' ltac:(left)) as Hd'.
    destruct (initTableCommonWithIndices tblInfo (ID d') _ _) as [tc [e'|]];
      cbn in Hd'; [discriminate|].
    apply IH. intros d'' Hin. apply Hpre. right. exact Hin.
Qed.

(** The constructor reports errors in a fixed order and as they are: an
    error of the boundary compiler first; then an error of
    [initTableIndices]; then the error of the first definition, in order,
    whose sub-table does not initialise.  In each case no table is
    returned. *)
Theorem newPartitionedTable_error_order tbl tblInfo w :
  (forall (pe : option PartitionExpr) (e : Error) w1,
     generatePartitionExpr tblInfo w = Return ((pe, Some e), w1) ->
     newPartitionedTable tbl tblInfo w = Return ((None, Some e), w1)) /\
  (forall (pe : option PartitionExpr) w1 (tc : tableCommon) (e : Error),
     generatePartitionExpr tblInfo w = Return ((pe, None), w1) ->
     initTableIndices (Table_tableCommon tbl) = (tc, Some e) ->
     newPartitionedTable tbl tblInfo w = Return ((None, Some e), w1)) /\
  (forall (pe : option PartitionExpr) w1 (tc : tableCommon) pi
          (pre post : list PartitionDefinition) (d : PartitionDefinition)
          (e : Error),
     generatePartitionExpr tblInfo w = Return ((pe, None), w1) ->
     initTableIndices (Table_tableCommon tbl) = (tc, None) ->
     GetPartitionInfo tblInfo = Some pi ->
     Definitions pi = pre ++ d :: post ->
     (forall d', d' ∈ pre ->
        (initTableCommonWithIndices tblInfo (ID d') (Columns tc) (alloc tc)).2
        = None) ->
     (initTableCommonWithIndices tblInfo (ID d) (Columns tc) (alloc tc)).2
     = Some e ->
     newPartitionedTable tbl tblInfo w = Return ((None, Some e), w1)).
Proof.
  split; [|split].
  - intros pe e w1 Hgen. unfold newPartitionedTable. unfold bind at 1.
    rewrite Hgen. reflexivity.
  - intros pe w1 tc e Hgen Hidx. unfold newPartitionedTable. unfold bind at 1.
    rewrite Hgen, Hidx. reflexivity.
  - intros pe w1 tc pi pre post d e Hgen Hidx Hpi Hdefs Hpre Hd.
    unfold newPartitionedTable. unfold bind at 1.
    rewrite Hgen, Hidx, Hpi, Hdefs.
    rewrite (newPartitionedTable_loop_first_failure tblInfo
               {| Table_tableCommon := tc |} e d post Hd pre ∅ Hpre).
    reflexivity.
Qed.

End CompilerMore.

(** ** The further properties on the tables of the scenarios *)

Section DemoMore.
#[local] Existing Instances Demo.base Demo.exprPkg Demo.tablePkg.
Import Demo.

Lemma locatePartition_every_bound_fails_witness :
  locatePartition (built infoAllDiv) tt (GetPartitionInfo infoAllDiv) [5]
  = Return (0, Some ErrDivisionByZero).
Proof.
  apply (locatePartition_every_bound_fails (built infoAllDiv) tt
           (GetPartitionInfo infoAllDiv) [5] partitionExprAllDiv
           ErrDivisionByZero).
  - reflexivity.
  - intros h Hh. cbn in Hh. destruct h as [|[|h]]; [| |lia]; eexists; reflexivity.
  - reflexivity.
Defined.

Lemma locatePartition_every_bound_false_witness :
  locatePartition (built info10) tt (GetPartitionInfo info10) [10]
  = Return (0, Some ErrNoPartition).
Proof.
  apply (locatePartition_every_bound_false (built info10) tt
           (GetPartitionInfo info10) [10] partitionExpr10).
  - reflexivity.
  - intros h Hh. cbn in Hh. destruct h as [|h]; [reflexivity | lia].
Defined.

Lemma locatePartition_never_crashes_witness :
  (exists e : Error,
     locatePartition (built info3) tt (GetPartitionInfo info3) [250]
     = Return (0, Some e)) \/
  (exists d : PartitionDefinition,
     d ∈ [ {| ID := 1; LessThan := ["100"] |};
           {| ID := 2; LessThan := ["200"] |};
           {| ID := 3; LessThan := ["MAXVALUE"] |} ] /\
     locatePartition (built info3) tt (GetPartitionInfo info3) [250]
     = Return (ID d, None)).
Proof.
  apply (locatePartition_never_crashes (built info3) tt
           {| Expr := "a";
              Definitions := [ {| ID := 1; LessThan := ["100"] |};
                               {| ID := 2; LessThan := ["200"] |};
                               {| ID := 3; LessThan := ["MAXVALUE"] |} ] |}
           [250] partitionExpr3).
  - reflexivity.
  - cbn. lia.
Defined.

Lemma facade_never_panics_witness :
  isPanic (UpdateRecord (built info3) tt 90 [90] [250] [true]
             (worldOf [(1, 90, [90])])) = false.
Proof.
  refine (proj2 (proj2 (facade_never_panics (plainTable info3) info3 emptyWorld
                          emptyWorld (built info3) _ _ tt 90 [90] [250] [true]
                          false (worldOf [(1, 90, [90])])))).
  - reflexivity.
  - reflexivity.
Defined.

Lemma UpdateRecord_remove_outcome_witness :
  UpdateRecord (built info3) tt 90 [90] [250] [true] emptyWorld
  = Return (Some ErrKeyNotExists,
            {| store := [(3, 250, [250])];
               calls := [CallAddRecord (partitionOf info3 3) [250] false;
                         CallRemoveRecord (partitionOf info3 1) 90 [90]];
               logged := [log_Error
                 ["partition update record error, it may write dirty data to txn:";
                  "key not exists"]] |}).
Proof.
  refine (proj1 (UpdateRecord_remove_outcome (built info3) tt 90 [90] [250]
                   [true] emptyWorld 1 3 (partitionOf info3 1)
                   (partitionOf info3 3) 250 [(3, 250, [250])]
                   [(3, 250, [250])] _ _ _ _ _ _) ErrKeyNotExists _).
  - reflexivity.
  - reflexivity.
  - discriminate.
  - reflexivity.
  - reflexivity.
  - reflexivity.
  - reflexivity.
Defined.

Lemma facade_touches_only_located_witness :
  exists added : list Call,
    [CallAddRecord (partitionOf info3 1) [50] false] = [] ++ added /\
    forall c, c ∈ added -> exists pid : Z,
      locatePartition (built info3) tt (GetPartitionInfo info3) [50]
      = Return (pid, None) /\
      partitions (built info3) !! pid = Some (callPartition c).
Proof.
  refine (proj1 (facade_touches_only_located (built info3) tt 0 [50] [] []
                   false emptyWorld) (50, None)
            {| store := [(1, 50, [50])];
               calls := [CallAddRecord (partitionOf info3 1) [50] false];
               logged := [] |} _).
  reflexivity.
Defined.

Lemma registry_key_is_GetID_witness :
  partition_GetID (partitionOf info3 2) = Return 2.
Proof.
  refine (registry_key_is_GetID (plainTable info3) info3 emptyWorld emptyWorld
            (built info3) 2 (partitionOf info3 2) _ _ _).
  - intros id cols al tc. cbn. unfold demo_init.
    destruct (id <? 0); intros [= <-]; reflexivity.
  - reflexivity.
  - reflexivity.
Defined.

Lemma generatePartitionExpr_first_failure_witness :
  generatePartitionExpr infoBadText emptyWorld
  = Return ((None, Some (ErrUnknownColumn "zz")),
            {| store := []; calls := [];
               logged := [log_Error ["wrong table partition expression:";
                                     "unknown column zz"; "((a) < (zz))"]] |}).
Proof.
  refine (generatePartitionExpr_first_failure infoBadText
            {| Expr := "a";
               Definitions := [ {| ID := 1; LessThan := ["10"] |};
                                {| ID := 2; LessThan := ["zz"] |} ] |}
            emptyWorld 1 "zz" "((a) < (zz))" (ErrUnknownColumn "zz") _ _ _ _).
  - reflexivity.
  - reflexivity.
  - intros j Hj. assert (j = 0%nat) as -> by lia. eexists _, _. split; reflexivity.
  - left. split; reflexivity.
Defined.

Lemma newPartitionedTable_panics_on_unreadable_witness :
  newPartitionedTable (plainTable infoNoLiteral) infoNoLiteral emptyWorld
  = Panic index_out_of_range.
Proof.
  refine (proj2 (proj2 (newPartitionedTable_panics_on_unreadable
                          (plainTable infoNoLiteral) infoNoLiteral emptyWorld)
                   {| Expr := "a";
                      Definitions := [ {| ID := 1; LessThan := ["10"] |};
                                       {| ID := 2; LessThan := [] |} ] |}
                   1%nat {| ID := 2; LessThan := [] |} _ _ _ _)).
  - reflexivity.
  - reflexivity.
  - reflexivity.
  - intros j Hj. assert (j = 0%nat) as -> by lia. eexists _, _. split; reflexivity.
Defined.

Lemma newPartitionedTable_success_witness :
  generatePartitionExpr info3 emptyWorld
  = Return ((partitionedTable_PartitionExpr (built info3), None), emptyWorld).
Proof.
  refine (proj1 (proj2 (newPartitionedTable_success (plainTable info3) info3
                          emptyWorld (built info3) emptyWorld _))).
  reflexivity.
Defined.

Lemma newPartitionedTable_error_order_witness :
  newPartitionedTable (plainTable infoBadID) infoBadID emptyWorld
  = Return ((None, Some ErrInvalidTableID), emptyWorld).
Proof.
  refine (proj2 (proj2 (newPartitionedTable_error_order (plainTable infoBadID)
                          infoBadID emptyWorld))
            (Some {| Ranges := [ELt (ECol 0) (EConst 10);
                                EAnd ETrue (EGe (ECol 0) (EConst 10))];
                     UpperBounds := [ELt (ECol 0) (EConst 10); ETrue] |})
            emptyWorld (Table_tableCommon (plainTable infoBadID))
            {| Expr := "a";
               Definitions := [ {| ID := 1; LessThan := ["10"] |};
                                {| ID := -2; LessThan := ["MAXVALUE"] |} ] |}
            [ {| ID := 1; LessThan := ["10"] |} ] []
            {| ID := -2; LessThan := ["MAXVALUE"] |} ErrInvalidTableID
            _ _ _ _ _ _).
  - reflexivity.
  - reflexivity.
  - reflexivity.
  - reflexivity.
  - intros d' Hd'. apply list_elem_of_singleton in Hd' as ->. reflexivity.
  - reflexivity.
Defined.

End DemoMore.
